(** * workerpool: the deferred handle and the worker runtime

    A shallow embedding of [src/Promise.ts] (the cancellable promise) and
    of the worker runtime (the RPC loop that serves requests inside a
    worker), with the properties the specification states about them.

    - [JS]: the JavaScript values both files handle, property lookup,
      truthiness, and the duck-typing test [isPromise].
    - [Deferred]: the [Promise] class, as operations over a heap of promise
      objects whose callback queues hold closures.
    - [Runtime]: the worker runtime, as a transition function over the
      module-level variables of the file.
    - [Lifecycle], [Accounting]: what is observed of the two above.
    - [Ports]: the debug port allocator of [src/debug-port-allocator.ts]. *)

From stdpp Require Import base list strings pretty gmap sorting.
From Stdlib Require Import ZArith Lia.

Set Warnings "-register-all".
Open Scope string_scope.
Open Scope list_scope.

(* ===================================================================== *)
(** * JavaScript values                                                   *)
(* ===================================================================== *)

Module JS.

(** An object is its own properties, in creation order, each with its
    [enumerable] attribute, and the properties it finds on its prototype
    chain.  Own property names are distinct in JavaScript; lookup takes the
    first match.  A function is an opaque value with the two own properties
    every arrow function, method and built-in has ([length], [name]).
    [VTransfer] is an instance of the [Transfer] class, [VPromise] a promise
    object, known by its identity.  Numbers are the integers. *)
Inductive value : Type :=
| VUndefined
| VNull
| VBool (b : bool)
| VNum (n : Z)
| VStr (s : string)
| VArr (items : list value)
| VFun (name : string) (arity : Z)
| VObj (own : list (string * (value * bool))) (inherited : list (string * value))
| VTransfer (message : value) (transfer : list value)
| VPromise (p : nat).

(** The double quote character, as a one-character string. *)
Definition dquote : string := String (Ascii.ascii_of_nat 34) EmptyString.

(** First match of a key in an association list. *)
Fixpoint assoc {A : Type} (k : string) (l : list (string * A)) : option A :=
  match l with
  | [] => None
  | (k', a) :: l' => if String.eqb k k' then Some a else assoc k l'
  end.

(** [ToBoolean]. *)
Definition truthy (v : value) : bool :=
  match v with
  | VUndefined | VNull => false
  | VBool b => b
  | VNum n => negb (Z.eqb n 0)
  | VStr s => negb (String.eqb s EmptyString)
  | _ => true
  end.

Definition is_null (v : value) : bool :=
  match v with VNull => true | _ => false end.

(** The one-character strings of [s], in order. *)
Fixpoint chars (s : string) : list value :=
  match s with
  | EmptyString => []
  | String c s' => VStr (String c EmptyString) :: chars s'
  end.

(** What every [Promise] instance (this repository's or the host's) finds on
    its prototype. *)
Definition Promise_prototype : list (string * value) :=
  [("then", VFun "then" 2); ("catch", VFun "catch" 1)].

(** [Error.prototype], as far as the code reads it. *)
Definition Error_prototype : list (string * value) :=
  [("name", VStr "Error"); ("message", VStr EmptyString);
   ("toString", VFun "toString" 0)].

(** The own properties of [ToObject v], as [Object.getOwnPropertyNames]
    and [Object.getOwnPropertyDescriptor] see them; [None] for [null] and
    [undefined], where both throw a [TypeError].  A promise object is taken
    for a promise of the host here, which has no own property: the fields
    of an instance of the class of [Promise.ts] live in the heap of
    [Deferred] and are not listed. *)
Definition own_properties (v : value) : option (list (string * (value * bool))) :=
  match v with
  | VUndefined | VNull => None
  | VBool _ | VNum _ | VPromise _ => Some []
  | VStr s =>
      Some (imap (fun i x => (pretty i, (x, true))) (chars s)
              ++ [("length", (VNum (Z.of_nat (String.length s)), false))])
  | VArr items =>
      Some (imap (fun i x => (pretty i, (x, true))) items
              ++ [("length", (VNum (Z.of_nat (length items)), false))])
  | VFun name arity =>
      Some [("length", (VNum arity, false)); ("name", (VStr name, false))]
  | VObj own _ => Some own
  | VTransfer message transfer =>
      Some [("message", (message, true)); ("transfer", (VArr transfer, true))]
  end.

(** [Object.getOwnPropertyNames]. *)
Definition getOwnPropertyNames (v : value) : option (list string) :=
  option_map (map fst) (own_properties v).

(** What [v] inherits. *)
Definition inherited_properties (v : value) : list (string * value) :=
  match v with
  | VObj _ inherited => inherited
  | VPromise _ => Promise_prototype
  | _ => []
  end.

(** The property read [v[name]] on a value that is neither [null] nor
    [undefined]: an own property, else an inherited one, else
    [undefined]. *)
Definition get (v : value) (name : string) : value :=
  match own_properties v with
  | None => VUndefined
  | Some own =>
      match assoc name own with
      | Some (x, _) => x
      | None =>
          match assoc name (inherited_properties v) with
          | Some x => x
          | None => VUndefined
          end
      end
  end.

(** The array index that a property name is, if any: the name is the
    decimal numeral, without sign or leading zero, of an integer below
    [2^32 - 1]. *)
Definition digit (c : Ascii.ascii) : option N :=
  let n := Ascii.N_of_ascii c in
  if ((48 <=? n) && (n <=? 57))%N then Some (n - 48)%N else None.

Fixpoint numeral (s : string) (acc : N) : option N :=
  match s with
  | EmptyString => Some acc
  | String c rest =>
      match digit c with
      | Some d => numeral rest (10 * acc + d)%N
      | None => None
      end
  end.

Definition array_index (name : string) : option N :=
  match name with
  | EmptyString => None
  | _ =>
      match numeral name 0%N with
      | Some n =>
          if decide (pretty n = name /\ (n < 4294967295)%N) then Some n
          else None
      | None => None
      end
  end.

Fixpoint indices (names : list string) : list N :=
  match names with
  | [] => []
  | name :: rest =>
      match array_index name with
      | Some n => n :: indices rest
      | None => indices rest
      end
  end.

Fixpoint others (names : list string) : list string :=
  match names with
  | [] => []
  | name :: rest =>
      match array_index name with
      | Some _ => others rest
      | None => name :: others rest
      end
  end.

(** [Object.keys(o)] for an object whose own properties, all enumerable,
    were created in the order of [own]: the names that are array indices
    come first, in ascending numeric order, and the other names follow in
    the order of their creation. *)
Definition Object_keys {A : Type} (own : list (string * A)) : list string :=
  map pretty (merge_sort N.le (indices (map fst own)))
  ++ others (map fst own).

(** [typeof v === 'function']. *)
Definition is_function (v : value) : bool :=
  match v with VFun _ _ => true | _ => false end.

(** [value && typeof value.then === 'function' &&
     typeof value.catch === 'function'], the test both [Promise.ts]
    ([_then]) and the worker runtime define under the name [isPromise]. *)
Definition isPromise (v : value) : bool :=
  truthy v && is_function (get v "then") && is_function (get v "catch").

(** The enumerable ones among own properties. *)
Fixpoint enumerable (own : list (string * (value * bool)))
    : list (string * value) :=
  match own with
  | [] => []
  | (k, (x, e)) :: rest =>
      if e then (k, x) :: enumerable rest else enumerable rest
  end.

(** The fields of a record that a structured clone or a JSON encoding
    carries to the other side: its own enumerable properties. *)
Definition enumerable_fields (v : value) : list (string * value) :=
  match own_properties v with
  | None => []
  | Some own => enumerable own
  end.

(** [new Error(message)]: [message] and [stack] are own, non-enumerable
    properties (the host fills [stack]; the header line is modelled, the
    frames after it are left out); [name] lives on the prototype. *)
Definition new_Error (message : string) : value :=
  VObj [("stack", (VStr ("Error: " +:+ message), false));
        ("message", (VStr message, false))]
       Error_prototype.

(** [new TypeError(message)], thrown by the host. *)
Definition new_TypeError (message : string) : value :=
  VObj [("stack", (VStr ("TypeError: " +:+ message), false));
        ("message", (VStr message, false))]
       [("name", VStr "TypeError"); ("message", VStr EmptyString);
        ("toString", VFun "toString" 0)].

(** [new RangeError(message)], thrown by the host. *)
Definition new_RangeError (message : string) : value :=
  VObj [("stack", (VStr ("RangeError: " +:+ message), false));
        ("message", (VStr message, false))]
       [("name", VStr "RangeError"); ("message", VStr EmptyString);
        ("toString", VFun "toString" 0)].

(** The empty object literal. *)
Definition empty_object : value := VObj [] [].

(** [Object.defineProperty(product, name, {value, enumerable})] on a
    property [product] does not have yet: the property is added after the
    existing ones. *)
Definition defineProperty (product : value) (name : string)
    (x : value) (enumerable : bool) : value :=
  match product with
  | VObj own inherited => VObj (own ++ [(name, (x, enumerable))]) inherited
  | _ => product
  end.

(** An object with a [then] method and no [catch]. *)
Definition thenable_only : value := VObj [("then", (VFun "then" 2, true))] [].

End JS.

(* ===================================================================== *)
(** * The deferred handle ([src/Promise.ts])                              *)
(* ===================================================================== *)

Module Deferred.
Import JS.

(** Promise objects and timers live in a heap and are known by their
    address. *)
Abbreviation pid := nat (only parsing).
Abbreviation tid := nat (only parsing).

(** The value of [this._resolve] and of [this._reject]: the method of the
    class, or the own property [() => {}] that settlement assigns over it. *)
Inductive settler := Method | Noop.

(** The value of [this._process]: the method of the class, which queues, or
    one of the two arrows that settlement assigns over it. *)
Inductive processor :=
| Enqueue
| OnSuccess (result : value)
| OnFail (error : value).

(** What [this] is bound to in a call of a [function]. *)
Inductive receiver :=
| ThisUndefined
| ThisTimer (t : tid)
| ThisPromise (p : pid).

(** What a caller-supplied function gives back. *)
Inductive answer :=
| ReturnArg
| Return (v : value)
| ThrowArg
| Throw (e : value).

(** The function values the class creates and receives.
    - [Resolve p], [Reject p]: the arrows [(result) => this._resolve(result)]
      and [(error) => this._reject(error)] that the constructor of [p] hands
      to its handler.
    - [Then callback resolve reject]: the arrow [_then] returns.
    - [ClearTimeout t]: [() => clearTimeout(timer)] in [timeout].
    - [TimedOut delay]: the [function () { this._reject(new TimeoutError(..)) }]
      that [timeout] passes to [setTimeout].
    - [User body answer]: a function of the caller, which performs [body]
      and then returns or throws. *)
Inductive closure :=
| Resolve (p : pid)
| Reject (p : pid)
| Then (callback resolve reject : closure)
| ClearTimeout (t : tid)
| TimedOut (delay : option Z)
| User (body : list action) (result : answer)
with action :=
| Log (tag : nat)
| Call (f : closure) (x : value)
| Cancel (p : pid)
| TimeoutOn (p : pid) (delay : option Z)
| ThenOn (p : pid) (onSuccess onFail : option closure).

(** The fields of a [Promise] instance. *)
Record promise := {
  _onSuccess : list closure;
  _onFail : list closure;
  resolved : bool;
  rejected : bool;
  pending : bool;
  parent : option pid;
  _process : processor;
  _resolve : settler;
  _reject : settler
}.

Record timer := {
  callback : closure;
  armed : bool
}.

(** The heap, the host's timers, what the caller's functions logged, and
    the [then] calls made on promise-likes of another class. *)
Record state := {
  heap : list promise;
  timers : list timer;
  console : list (nat * value);
  foreign : list (value * closure * closure)
}.

Definition initial : state :=
  {| heap := []; timers := []; console := []; foreign := [] |}.

(** A call returns a value or throws.  The two other outcomes belong to
    the model: [Overflow] is a walk up the [parent] links that ran past its
    bound, and [Dangling] the use of an address nothing was allocated at;
    neither arises in a heap the methods have built. *)
Inductive outcome :=
| Returned (v : value) (s : state)
| Thrown (e : value) (s : state)
| Overflow
| Dangling.

(** [new CancellationError()]: [name] is a class field, so an own
    enumerable property. *)
Definition new_CancellationError : value :=
  VObj [("stack", (VStr "Error: promise cancelled", false));
        ("message", (VStr "promise cancelled", false));
        ("name", (VStr "CancellationError", true))]
       (("constructor", VFun "CancellationError" 0) :: Error_prototype).

(** [new TimeoutError(message)]. *)
Definition new_TimeoutError (message : string) : value :=
  VObj [("stack", (VStr ("Error: " +:+ message), false));
        ("message", (VStr message, false))]
       (("constructor", VFun "TimeoutError" 0) :: Error_prototype).

(** ['' + delay]. *)
Definition delay_text (delay : option Z) : string :=
  match delay with
  | Some ms => pretty ms
  | None => "undefined"
  end.

Definition timed_out (delay : option Z) : value :=
  new_TimeoutError ("Promise timed out after " +:+ delay_text delay +:+ " ms").

Definition with_heap (h : list promise) (s : state) : state :=
  {| heap := h; timers := timers s; console := console s;
     foreign := foreign s |}.

Definition with_timers (ts : list timer) (s : state) : state :=
  {| heap := heap s; timers := ts; console := console s;
     foreign := foreign s |}.

(** Assign to fields of the object at [p]. *)
Definition modify (p : pid) (f : promise -> promise) (s : state) : state :=
  with_heap (alter f p (heap s)) s.

(** [this.resolved = true; this.rejected = false; this.pending = false]. *)
Definition mark_resolved (o : promise) : promise :=
  {| _onSuccess := _onSuccess o; _onFail := _onFail o;
     resolved := true; rejected := false; pending := false;
     parent := parent o; _process := _process o;
     _resolve := _resolve o; _reject := _reject o |}.

(** [this.resolved = false; this.rejected = true; this.pending = false]. *)
Definition mark_rejected (o : promise) : promise :=
  {| _onSuccess := _onSuccess o; _onFail := _onFail o;
     resolved := false; rejected := true; pending := false;
     parent := parent o; _process := _process o;
     _resolve := _resolve o; _reject := _reject o |}.

(** [this._process = ...; this._resolve = this._reject = () => {}]. *)
Definition seal (how : processor) (o : promise) : promise :=
  {| _onSuccess := _onSuccess o; _onFail := _onFail o;
     resolved := resolved o; rejected := rejected o; pending := pending o;
     parent := parent o; _process := how;
     _resolve := Noop; _reject := Noop |}.

(** [this._onSuccess.push(onSuccess); this._onFail.push(onFail)]. *)
Definition push (onSuccess onFail : closure) (o : promise) : promise :=
  {| _onSuccess := _onSuccess o ++ [onSuccess];
     _onFail := _onFail o ++ [onFail];
     resolved := resolved o; rejected := rejected o; pending := pending o;
     parent := parent o; _process := _process o;
     _resolve := _resolve o; _reject := _reject o |}.

(** The field initialisers of the class and the [parent] parameter
    property. *)
Definition fresh (parent : option pid) : promise :=
  {| _onSuccess := []; _onFail := [];
     resolved := false; rejected := false; pending := true;
     parent := parent; _process := Enqueue;
     _resolve := Method; _reject := Method |}.

Definition allocate (parent : option pid) (s : state) : state :=
  with_heap (heap s ++ [fresh parent]) s.

(** [setTimeout(callback, delay)]; the timer's address is returned by the
    caller as [length (timers s)]. *)
Definition setTimeout (callback : closure) (s : state) : state :=
  with_timers (timers s ++ [{| callback := callback; armed := true |}]) s.

Definition disarm (T : timer) : timer :=
  {| callback := callback T; armed := false |}.

(** [clearTimeout(timer)]. *)
Definition clearTimeout (t : tid) (s : state) : state :=
  with_timers (alter disarm t (timers s)) s.

Definition log (tag : nat) (x : value) (s : state) : state :=
  {| heap := heap s; timers := timers s;
     console := console s ++ [(tag, x)]; foreign := foreign s |}.

Definition adopt_foreign (res : value) (resolve reject : closure)
    (s : state) : state :=
  {| heap := heap s; timers := timers s; console := console s;
     foreign := foreign s ++ [(res, resolve, reject)] |}.

(** ** The methods

    The methods call function values, and a function value may call back
    into the methods: the recursion is tied by [call], the invocation of a
    function value, which the methods take as a parameter.  [invoke]
    instantiates it with a bound on the depth of the call stack: a call
    for which no stack is left throws the host's [RangeError], which the
    [try] of [_then] catches like any other exception. *)

Definition invocation := closure -> receiver -> value -> state -> outcome.

Section Methods.

Variable call : invocation.

(** [fns.forEach((fn) => fn(x))].  The elements visited are those the
    array has when [forEach] is called; what a callback pushes meanwhile
    is not visited. *)
Fixpoint forEach (fns : list closure) (x : value) (s : state) : outcome :=
  match fns with
  | [] => Returned VUndefined s
  | fn :: rest =>
      match call fn ThisUndefined x s with
      | Returned _ s' => forEach rest x s'
      | o => o
      end
  end.

(** The method [_resolve] of the class. *)
Definition resolve_method (p : pid) (result : value) (s : state) : outcome :=
  let s1 := modify p mark_resolved s in
  match heap s1 !! p with
  | None => Dangling
  | Some o =>
      match forEach (_onSuccess o) result s1 with
      | Returned _ s2 =>
          Returned (VPromise p) (modify p (seal (OnSuccess result)) s2)
      | o => o
      end
  end.

(** The method [_reject] of the class. *)
Definition reject_method (p : pid) (error : value) (s : state) : outcome :=
  let s1 := modify p mark_rejected s in
  match heap s1 !! p with
  | None => Dangling
  | Some o =>
      match forEach (_onFail o) error s1 with
      | Returned _ s2 =>
          Returned (VPromise p) (modify p (seal (OnFail error)) s2)
      | o => o
      end
  end.

(** The call [this._resolve(result)], through whatever the property
    holds. *)
Definition send_resolve (p : pid) (result : value) (s : state) : outcome :=
  match heap s !! p with
  | None => Dangling
  | Some o =>
      match _resolve o with
      | Method => resolve_method p result s
      | Noop => Returned VUndefined s
      end
  end.

(** The call [this._reject(error)]. *)
Definition send_reject (p : pid) (error : value) (s : state) : outcome :=
  match heap s !! p with
  | None => Dangling
  | Some o =>
      match _reject o with
      | Method => reject_method p error s
      | Noop => Returned VUndefined s
      end
  end.

(** The call [this._process(onSuccess, onFail)]. *)
Definition process (p : pid) (onSuccess onFail : closure) (s : state)
    : outcome :=
  match heap s !! p with
  | None => Dangling
  | Some o =>
      match _process o with
      | Enqueue => Returned VUndefined (modify p (push onSuccess onFail) s)
      | OnSuccess result => call onSuccess ThisUndefined result s
      | OnFail error => call onFail ThisUndefined error s
      end
  end.

(** [then(onSuccess, onFail)]: the child is constructed with [this] as
    parent, and its handler runs inside the constructor. *)
Definition then_ (p : pid) (onSuccess onFail : option closure) (s : state)
    : outcome :=
  match heap s !! p with
  | None => Dangling
  | Some _ =>
      let child := length (heap s) in
      let s1 := allocate (Some p) s in
      let resolve := Resolve child in
      let reject := Reject child in
      let sf := match onSuccess with
                | Some f => Then f resolve reject
                | None => resolve
                end in
      let ff := match onFail with
                | Some f => Then f resolve reject
                | None => reject
                end in
      match process p sf ff s1 with
      | Returned _ s2 => Returned (VPromise child) s2
      | o => o
      end
  end.

(** [always(fn)]. *)
Definition always (p : pid) (fn : option closure) (s : state) : outcome :=
  then_ p fn fn s.

(** [catch(onFail)]. *)
Definition catch (p : pid) (onFail : option closure) (s : state) : outcome :=
  then_ p None onFail s.

(** [cancel()].  A promise is constructed after its parent, so the walk
    up from [p] takes at most [p] steps; [steps] bounds it. *)
Fixpoint cancel_walk (steps : nat) (p : pid) (s : state) : outcome :=
  match heap s !! p with
  | None => Dangling
  | Some o =>
      match parent o with
      | Some q =>
          match steps with
          | O => Overflow
          | S steps' =>
              match cancel_walk steps' q s with
              | Returned _ s' => Returned (VPromise p) s'
              | o => o
              end
          end
      | None =>
          match send_reject p new_CancellationError s with
          | Returned _ s' => Returned (VPromise p) s'
          | o => o
          end
      end
  end.

Definition cancel (p : pid) (s : state) : outcome := cancel_walk p p s.

(** [timeout(delay)]. *)
Fixpoint timeout_walk (steps : nat) (p : pid) (delay : option Z) (s : state)
    : outcome :=
  match heap s !! p with
  | None => Dangling
  | Some o =>
      match parent o with
      | Some q =>
          match steps with
          | O => Overflow
          | S steps' =>
              match timeout_walk steps' q delay s with
              | Returned _ s' => Returned (VPromise p) s'
              | o => o
              end
          end
      | None =>
          let timer := length (timers s) in
          let s1 := setTimeout (TimedOut delay) s in
          match always p (Some (ClearTimeout timer)) s1 with
          | Returned _ s2 => Returned (VPromise p) s2
          | o => o
          end
      end
  end.

Definition timeout (p : pid) (delay : option Z) (s : state) : outcome :=
  timeout_walk p p delay s.

(** The host runs a timer that is due: the callback is called with the
    timer object as [this] (Node.js; a browser passes the global object),
    not with the promise. *)
Definition fire (t : tid) (s : state) : outcome :=
  match timers s !! t with
  | Some T =>
      if armed T
      then call (callback T) (ThisTimer t) VUndefined (clearTimeout t s)
      else Returned VUndefined s
  | None => Returned VUndefined s
  end.

(** The statements of a caller's function, run in order with the
    argument [x] of the function. *)
Fixpoint perform (body : list action) (x : value) (s : state) : outcome :=
  match body with
  | [] => Returned VUndefined s
  | a :: rest =>
      let done :=
        match a with
        | Log tag => Returned VUndefined (log tag x s)
        | Call f y => call f ThisUndefined y s
        | Cancel p => cancel p s
        | TimeoutOn p delay => timeout p delay s
        | ThenOn p onSuccess onFail => then_ p onSuccess onFail s
        end in
      match done with
      | Returned _ s' => perform rest x s'
      | o => o
      end
  end.

(** The [catch (error) { reject(error) }] of [_then]. *)
Definition caught (reject : closure) (error : value) (s : state) : outcome :=
  match call reject ThisUndefined error s with
  | Returned _ s' => Returned VUndefined s'
  | o => o
  end.

(** The body of each function value. *)
Definition apply (f : closure) (this : receiver) (x : value) (s : state)
    : outcome :=
  match f with
  | Resolve p => send_resolve p x s
  | Reject p => send_reject p x s
  | Then callback resolve reject =>
      match call callback ThisUndefined x s with
      | Returned res s1 =>
          if isPromise res then
            match res with
            | VPromise q =>
                match then_ q (Some resolve) (Some reject) s1 with
                | Returned _ s2 => Returned VUndefined s2
                | Thrown e s2 => caught reject e s2
                | o => o
                end
            | _ => Returned VUndefined (adopt_foreign res resolve reject s1)
            end
          else
            match call resolve ThisUndefined res s1 with
            | Returned _ s2 => Returned VUndefined s2
            | Thrown e s2 => caught reject e s2
            | o => o
            end
      | Thrown e s1 => caught reject e s1
      | o => o
      end
  | ClearTimeout t => Returned VUndefined (clearTimeout t s)
  | TimedOut delay =>
      match this with
      | ThisPromise p =>
          match send_reject p (timed_out delay) s with
          | Returned _ s' => Returned VUndefined s'
          | o => o
          end
      | ThisTimer _ =>
          Thrown (new_TypeError "this._reject is not a function") s
      | ThisUndefined =>
          Thrown (new_TypeError
                    "Cannot read properties of undefined (reading '_reject')") s
      end
  | User body result =>
      match perform body x s with
      | Returned _ s' =>
          match result with
          | ReturnArg => Returned x s'
          | Return v => Returned v s'
          | ThrowArg => Thrown x s'
          | Throw e => Thrown e s'
          end
      | o => o
      end
  end.

End Methods.

(** What the host throws when a call finds the stack exhausted. *)
Definition stack_exhausted : value :=
  new_RangeError "Maximum call stack size exceeded".

(** Invocation of a function value, with at most [depth] nested calls. *)
Fixpoint invoke (depth : nat) : invocation :=
  match depth with
  | O => fun _ _ _ s => Thrown stack_exhausted s
  | S depth' => apply (invoke depth')
  end.

(** [Promise.defer()]: a promise without parent whose handler keeps the two
    arrows; the resolver is [(Resolve p, Reject p, p)] for the address [p]
    returned. *)
Definition defer (s : state) : pid * state :=
  (length (heap s), allocate None s).

(** ** Invariants of the heap *)

(** What no assignment of the class changes: [parent] is read-only, and
    [pending] is only ever set to [false]. *)
Definition keeps (o o' : promise) : Prop :=
  parent o' = parent o /\ (pending o = false -> pending o' = false).

(** A promise is constructed after its parent. *)
Definition parents_older (h : list promise) : Prop :=
  forall p o q, h !! p = Some o -> parent o = Some q -> q < p.

Definition evolves (s s' : state) : Prop :=
  (forall p o, heap s !! p = Some o ->
     exists o', heap s' !! p = Some o' /\ keeps o o')
  /\ (parents_older (heap s) -> parents_older (heap s')).

Definition evolves_to (s : state) (o : outcome) : Prop :=
  match o with
  | Returned _ s' | Thrown _ s' => evolves s s'
  | _ => True
  end.

(** [root_of h p r]: the walk up the [parent] links from [p] ends at [r]. *)
Inductive root_of (h : list promise) : pid -> pid -> Prop :=
| root_here p o :
    h !! p = Some o -> parent o = None -> root_of h p p
| root_above p o q r :
    h !! p = Some o -> parent o = Some q -> root_of h q r -> root_of h p r.

(** A function value that does not settle [r]: it holds neither of the two
    arrows of [r], and the caller's code in it does not cancel. *)
Fixpoint inert (r : pid) (f : closure) : Prop :=
  match f with
  | Resolve p | Reject p => p <> r
  | Then callback resolve reject =>
      inert r callback /\ inert r resolve /\ inert r reject
  | ClearTimeout _ | TimedOut _ => True
  | User body _ =>
      (fix all (l : list action) : Prop :=
         match l with
         | [] => True
         | a :: l' => inert_action r a /\ all l'
         end) body
  end
with inert_action (r : pid) (a : action) : Prop :=
  match a with
  | Log _ => True
  | Call f _ => inert r f
  | Cancel _ => False
  | TimeoutOn _ _ => True
  | ThenOn _ onSuccess onFail =>
      match onSuccess with Some f => inert r f | None => True end
      /\ match onFail with Some f => inert r f | None => True end
  end.

Definition inert_option (r : pid) (f : option closure) : Prop :=
  match f with Some f => inert r f | None => True end.

(** Every callback queued anywhere is inert for [r]. *)
Definition inert_queues (r : pid) (s : state) : Prop :=
  r < length (heap s)
  /\ forall p o, heap s !! p = Some o ->
       Forall (inert r) (_onSuccess o) /\ Forall (inert r) (_onFail o).

(** The fields of a promise that say how it is settled. *)
Definition status (o : promise)
    : bool * bool * bool * processor * settler * settler :=
  (resolved o, rejected o, pending o, _process o, _resolve o, _reject o).

Definition untouched (r : pid) (s s' : state) : Prop :=
  inert_queues r s'
  /\ forall o, heap s !! r = Some o ->
       exists o', heap s' !! r = Some o' /\ status o' = status o.

Definition untouched_by (r : pid) (s : state) (out : outcome) : Prop :=
  match out with
  | Returned _ s' | Thrown _ s' => untouched r s s'
  | _ => True
  end.

(** The promise at [r] has the status [st]. *)
Definition has_status (r : pid)
    (st : bool * bool * bool * processor * settler * settler) (s : state)
    : Prop :=
  exists o, heap s !! r = Some o /\ status o = st.

Definition keeps_status (r : pid)
    (st : bool * bool * bool * processor * settler * settler) (out : outcome)
    : Prop :=
  match out with
  | Returned _ s' | Thrown _ s' => has_status r st s'
  | _ => True
  end.

(** The status of a promise whose settlement is complete: [_process],
    [_resolve] and [_reject] have been replaced. *)
Definition complete (st : bool * bool * bool * processor * settler * settler)
    : Prop :=
  match st with
  | (_, _, _, how, resolve, reject) =>
      how <> Enqueue /\ resolve = Noop /\ reject = Noop
  end.

(** ** Scenarios *)

Definition state_after (o : outcome) : state :=
  match o with
  | Returned _ s | Thrown _ s => s
  | _ => initial
  end.

(** [d = Promise.defer(); d.promise.then(() => d.reject('late'))]. *)
Definition reentrant_start : state :=
  state_after
    (then_ (invoke 0) 0
       (Some (User [Call (Reject 0) (VStr "late")] ReturnArg)) None
       (snd (defer initial))).

(** [d = Promise.defer(); c = d.promise.then(null, () => 'recovered')]. *)
Definition recovering_start : state :=
  state_after
    (then_ (invoke 0) 0 None (Some (User [] (Return (VStr "recovered"))))
       (snd (defer initial))).

(** [d = Promise.defer();
     d.promise.then(() => { d.promise.then((x) => console.log(7, x)) })]. *)
Definition nested_then_start : state :=
  state_after
    (then_ (invoke 0) 0
       (Some (User [ThenOn 0 (Some (User [Log 7] ReturnArg)) None] ReturnArg))
       None (snd (defer initial))).

(** [d = Promise.defer(); d.promise.timeout(10)]. *)
Definition timer_start : state :=
  state_after (timeout (invoke 0) 0 (Some 10%Z) (snd (defer initial))).

(** [d = Promise.defer(); d.promise.then(() => { d.promise.cancel() })]. *)
Definition cancelling_start : state :=
  state_after
    (then_ (invoke 0) 0 (Some (User [Cancel 0] ReturnArg)) None
       (snd (defer initial))).

End Deferred.

(* ===================================================================== *)
(** * The worker runtime                                                  *)
(* ===================================================================== *)

Module Runtime.
Import JS.

(** The message that asks the worker to terminate itself. *)
Definition TERMINATE_METHOD_ID : string := "__workerpool-terminate__".

(** [WorkerRequest]. *)
Record WorkerRequest := {
  id : value;
  method : string;
  params : list value
}.

(** What the parent sends: a string, or a request. *)
Inductive inbound :=
| Text (s : string)
| Request (r : WorkerRequest).

(** What the worker sends: ['ready'], a response [{id, result, error}], or
    an event [{id, isEvent: true, payload}]. *)
Inductive message :=
| Ready
| Response (id result error : value)
| Event (id payload : value).

(** A call of [worker.send]: the message, and the transfer list when the
    call passes one. *)
Definition sending : Type := message * option (list value).

(** How a call of caller-supplied code ends. *)
Inductive completion :=
| Returns (v : value)
| Throws (e : value).

(** A call of caller-supplied code: the payloads it passes to [emit] while
    it runs, then its completion. *)
Record execution := {
  emits : list value;
  completion_of : completion
}.

Definition returning (v : value) : execution :=
  {| emits := []; completion_of := Returns v |}.

Definition throwing (e : value) : execution :=
  {| emits := []; completion_of := Throws e |}.

(** The functions in [workerMethods]: the two the file defines, and the
    caller's, known by what a call with given arguments does. *)
Inductive func :=
| BuiltinRun
| BuiltinMethods
| Fn (body : list value -> execution).

(** [WorkerOptions]. *)
Record WorkerOptions := {
  onTerminate : option (Z -> execution)
}.

(** The continuations the runtime attaches to a promise: those of the
    message handler, [result.then(..).catch(..)], and those of
    [cleanupAndExit], [result.then(_exit, _exit)]. *)
Inductive continuation :=
| Reply (id : value)
| Exit (code : Z).

(** How a promise settles. *)
Inductive settlement :=
| Fulfilled (v : value)
| Rejected (e : value).

(** The module-level variables of the runtime, with what it has sent, the
    calls of [worker.exit] it has made, and the promises it waits for. *)
Record worker := {
  workerMethods : list (string * func);
  terminationHandler : option (Z -> execution);
  currentRequestId : value;
  sent : list sending;
  exits : list Z;
  awaiting : list (value * continuation)
}.

(** The state when the module has been loaded. *)
Definition loaded : worker :=
  {| workerMethods := [("run", BuiltinRun); ("methods", BuiltinMethods)];
     terminationHandler := None;
     currentRequestId := VUndefined;
     sent := [];
     exits := [];
     awaiting := [] |}.

(** A handler runs to its end, or an exception leaves it. *)
Inductive reaction :=
| Done (w : worker)
| Uncaught (e : value) (w : worker).

Definition state_of (r : reaction) : worker :=
  match r with Done w | Uncaught _ w => w end.

Definition set_methods (ms : list (string * func)) (w : worker) : worker :=
  {| workerMethods := ms; terminationHandler := terminationHandler w;
     currentRequestId := currentRequestId w; sent := sent w;
     exits := exits w; awaiting := awaiting w |}.

Definition set_terminationHandler (h : option (Z -> execution)) (w : worker)
    : worker :=
  {| workerMethods := workerMethods w; terminationHandler := h;
     currentRequestId := currentRequestId w; sent := sent w;
     exits := exits w; awaiting := awaiting w |}.

Definition set_currentRequestId (v : value) (w : worker) : worker :=
  {| workerMethods := workerMethods w;
     terminationHandler := terminationHandler w;
     currentRequestId := v; sent := sent w;
     exits := exits w; awaiting := awaiting w |}.

(** [worker.send(message)] and [worker.send(message, transfer)]. *)
Definition send (m : message) (transfer : option (list value)) (w : worker)
    : worker :=
  {| workerMethods := workerMethods w;
     terminationHandler := terminationHandler w;
     currentRequestId := currentRequestId w;
     sent := sent w ++ [(m, transfer)];
     exits := exits w; awaiting := awaiting w |}.

(** [worker.exit(code)]. *)
Definition exit (code : Z) (w : worker) : worker :=
  {| workerMethods := workerMethods w;
     terminationHandler := terminationHandler w;
     currentRequestId := currentRequestId w; sent := sent w;
     exits := exits w ++ [code]; awaiting := awaiting w |}.

Definition set_awaiting (l : list (value * continuation)) (w : worker)
    : worker :=
  {| workerMethods := workerMethods w;
     terminationHandler := terminationHandler w;
     currentRequestId := currentRequestId w; sent := sent w;
     exits := exits w; awaiting := l |}.

(** [result.then(..)] with the continuations [k]. *)
Definition attach (result : value) (k : continuation) (w : worker) : worker :=
  set_awaiting (awaiting w ++ [(result, k)]) w.

(** [convertError]; [None] when [Object.getOwnPropertyNames] throws. *)
Definition convertError (error : value) : option value :=
  match getOwnPropertyNames error with
  | None => None
  | Some names =>
      Some (fold_left
              (fun product name =>
                 defineProperty product name (get error name) true)
              names empty_object)
  end.

(** What [Object.getOwnPropertyNames] throws on [null] and [undefined]. *)
Definition not_an_object : value :=
  new_TypeError "Cannot convert undefined or null to object".

(** [emit(payload)]. *)
Definition emit (payload : value) (w : worker) : worker :=
  if truthy (currentRequestId w) then
    match payload with
    | VTransfer message transfer =>
        send (Event (currentRequestId w) message) (Some transfer) w
    | _ => send (Event (currentRequestId w) payload) None w
    end
  else w.

(** The calls of [emit] that a piece of caller code makes, in order. *)
Definition emit_all (payloads : list value) (w : worker) : worker :=
  fold_left (fun w payload => emit payload w) payloads w.

(** The two branches on [result instanceof Transfer] that send a result. *)
Definition send_result (id result : value) (w : worker) : worker :=
  match result with
  | VTransfer message transfer =>
      send (Response id message VNull) (Some transfer) w
  | _ => send (Response id result VNull) None w
  end.

(** [worker.send({id, result: null, error: convertError(err)})]. *)
Definition send_error (id err : value) (w : worker) : reaction :=
  match convertError err with
  | Some record => Done (send (Response id VNull record) None w)
  | None => Uncaught not_an_object w
  end.

(** [workerMethods[name] = f].  The list keeps the properties in the order
    of their creation: an assignment to an existing name keeps its place,
    a new name goes to the end.  (The name [__proto__], an assignment to
    which sets the prototype and creates no property, is not treated
    apart.) *)
Fixpoint assign (name : string) (f : func) (ms : list (string * func))
    : list (string * func) :=
  match ms with
  | [] => [(name, f)]
  | (k, g) :: rest =>
      if String.eqb name k then (k, f) :: rest else (k, g) :: assign name f rest
  end.

(** [register(methods, options)]; [methods] lists the own enumerable
    properties of the object passed. *)
Definition register (methods : option (list (string * func)))
    (options : option WorkerOptions) (w : worker) : worker :=
  let w1 :=
    match methods with
    | Some ms =>
        set_methods
          (fold_left (fun reg '(name, f) => assign name f reg) ms
             (workerMethods w)) w
    | None => w
    end in
  let w2 :=
    match options with
    | Some o => set_terminationHandler (onTerminate o) w1
    | None => w1
    end in
  send Ready None w2.

(** A message that is a string other than the terminate message is read as
    a request all the same: its [id], [method] and [params] are
    [undefined], and [undefined] as a property key is ["undefined"]. *)
Definition as_request (m : inbound) : WorkerRequest :=
  match m with
  | Request r => r
  | Text _ => {| id := VUndefined; method := "undefined"; params := [] |}
  end.

(** The promise at position [k] of [awaiting] settles and the continuation
    attached to it runs: for the message listener the callback of [then] on
    fulfilment and the callback of [catch] on rejection, for
    [cleanupAndExit] the function [_exit] either way.  This is a promise
    that settles once and calls one callback, as a promise of the host
    does; the entry is dropped with it. *)
Definition settle (k : nat) (how : settlement) (w : worker) : reaction :=
  match awaiting w !! k with
  | None => Done w
  | Some (_, continuation) =>
      let w1 := set_awaiting (delete k (awaiting w)) w in
      match continuation, how with
      | Reply id, Fulfilled result =>
          Done (set_currentRequestId VNull (send_result id result w1))
      | Reply id, Rejected err =>
          match send_error id err w1 with
          | Done w2 => Done (set_currentRequestId VNull w2)
          | r => r
          end
      | Exit code, _ => Done (exit code w1)
      end
  end.

(** What happens to the worker: a message arrives, a promise it waits for
    settles, caller code that runs outside the message listener (a timer, a
    continuation of an asynchronous method) calls [emit], or the worker
    script calls [register]. *)
Inductive event :=
| Receives (m : inbound)
| Settles (k : nat) (how : settlement)
| Emits (payload : value)
| Registers (methods : option (list (string * func)))
    (options : option WorkerOptions).

Section Host.

(** The host: what the function compiled by
    [new Function('return (' + fn + ').apply(null, arguments);')] does
    when applied to [args], and what a property that [workerMethods] does
    not have itself is found to be on [Object.prototype]. *)
Variable evaluate : value -> value -> execution.
Variable inherited : string -> option func.

(** [workerMethods[name]]. *)
Definition lookup_method (w : worker) (name : string) : option func :=
  match assoc name (workerMethods w) with
  | Some f => Some f
  | None => inherited name
  end.

(** [method.apply(method, params)]. *)
Definition call_method (w : worker) (f : func) (params : list value)
    : execution :=
  match f with
  | BuiltinRun => evaluate (nth 0 params VUndefined) (nth 1 params VUndefined)
  | BuiltinMethods =>
      returning (VArr (map VStr (Object_keys (workerMethods w))))
  | Fn body => body params
  end.

(** [cleanupAndExit(code)]. *)
Definition cleanupAndExit (code : Z) (w : worker) : reaction :=
  match terminationHandler w with
  | None => Done (exit code w)
  | Some handler =>
      let run := handler code in
      let w1 := emit_all (emits run) w in
      match completion_of run with
      | Returns result =>
          if isPromise result
          then Done (attach result (Exit code) w1)
          else Done (exit code w1)
      | Throws err => Uncaught err w1
      end
  end.

(** The [try] block of the message listener and its [catch]. *)
Definition serve (request : WorkerRequest) (w : worker) : reaction :=
  match lookup_method w (method request) with
  | Some f =>
      let w1 := set_currentRequestId (id request) w in
      let run := call_method w1 f (params request) in
      let w2 := emit_all (emits run) w1 in
      match completion_of run with
      | Returns result =>
          if isPromise result
          then Done (attach result (Reply (id request)) w2)
          else Done (set_currentRequestId VNull
                       (send_result (id request) result w2))
      | Throws err => send_error (id request) err w2
      end
  | None =>
      send_error (id request)
        (new_Error ("Unknown method " +:+ dquote +:+ method request
                      +:+ dquote)) w
  end.

(** The listener of [worker.on('message', ..)]. *)
Definition on_message (m : inbound) (w : worker) : reaction :=
  match m with
  | Text s =>
      if String.eqb s TERMINATE_METHOD_ID
      then cleanupAndExit 0 w
      else serve (as_request m) w
  | Request request => serve request w
  end.

(** One turn of the event loop. *)
Definition step (e : event) (w : worker) : reaction :=
  match e with
  | Receives m => on_message m w
  | Settles k how => settle k how w
  | Emits payload => Done (emit payload w)
  | Registers methods options => Done (register methods options w)
  end.


End Host.

(** ** What is sent *)

(** The event that [emit(payload)] sends for the request [id]. *)
Definition event_of (id payload : value) : sending :=
  match payload with
  | VTransfer message transfer => (Event id message, Some transfer)
  | _ => (Event id payload, None)
  end.

(** The response that carries [result] for the request [id]. *)
Definition response_to (id result : value) : sending :=
  match result with
  | VTransfer message transfer => (Response id message VNull, Some transfer)
  | _ => (Response id result VNull, None)
  end.

Definition is_event (item : sending) : Prop :=
  match fst item with Event _ _ => True | _ => False end.

(** A response with [error] null, or with [result] null and a record as
    [error]. *)
Definition never_both (item : sending) : Prop :=
  match fst item with
  | Response _ result error =>
      error = VNull \/ (result = VNull /\ exists own, error = VObj own [])
  | _ => True
  end.

(** Exactly one of [result] and [error] is not [null]. *)
Definition exactly_one_non_null (m : message) : bool :=
  match m with
  | Response _ result error => xorb (is_null result) (is_null error)
  | _ => true
  end.

(** What a handler adds to [sent]. *)
Definition adds (P : sending -> Prop) (w : worker) (r : reaction) : Prop :=
  exists new : list sending,
    sent (state_of r) = sent w ++ new /\ Forall P new.

(** ** Scenarios *)

(** [Object.prototype.toString], applied to a function as [this]. *)
Definition Object_prototype_toString : func :=
  Fn (fun _ => returning (VStr "[object Function]")).

(** A host: it evaluates every source text to a function that returns
    [undefined], and its [Object.prototype] has [toString]. *)
Definition sample_evaluate : value -> value -> execution :=
  fun _ _ => returning VUndefined.

Definition sample_inherited (name : string) : option func :=
  if String.eqb name "toString" then Some Object_prototype_toString else None.

Definition sample_methods : list (string * func) :=
  [("nothing", Fn (fun _ => returning VNull));
   ("fail", Fn (fun _ => throwing (new_Error "boom")));
   ("progress",
    Fn (fun _ => {| emits := [VStr "progress: 50"];
                    completion_of := Returns (VStr "done") |}));
   ("thenable", Fn (fun _ => returning thenable_only))].

(** A worker script that has called [register(sample_methods)]. *)
Definition sample_worker : worker := register (Some sample_methods) None loaded.

(** A worker script that has registered a termination handler which returns
    [result]. *)
Definition cleanup_worker (result : value) : worker :=
  register None (Some {| onTerminate := Some (fun _ => returning result) |})
    loaded.

Definition request_of (n : Z) (name : string) : WorkerRequest :=
  {| id := VNum n; method := name; params := [] |}.

End Runtime.

(* ===================================================================== *)
(** * The life of a promise object                                        *)
(* ===================================================================== *)

Module Lifecycle.
Import JS Deferred.

(** Exactly one of [resolved], [rejected] and [pending] is set. *)
Definition one_status (o : promise) : Prop :=
  match resolved o, rejected o, pending o with
  | true, false, false | false, true, false | false, false, true => True
  | _, _, _ => False
  end.

(** What the assignments of the class keep true of every instance: one
    status flag is set; [_process] pushes onto both queues; [_resolve] and
    [_reject] are replaced together, and exactly when [_process] is; a
    pending promise still queues. *)
Definition well_formed (o : promise) : Prop :=
  one_status o
  /\ length (_onSuccess o) = length (_onFail o)
  /\ _resolve o = _reject o
  /\ (_process o = Enqueue <-> _resolve o = Method)
  /\ (pending o = true -> _process o = Enqueue).

Definition sound (s : state) : Prop :=
  forall p o, heap s !! p = Some o -> well_formed o.

Definition sound_after (out : outcome) : Prop :=
  match out with
  | Returned _ s' | Thrown _ s' => sound s'
  | _ => True
  end.

(** How the answer of a caller's function settles the child that [then]
    made for it, when the answer is not a promise. *)
Definition answered (ans : answer) (x : value) : processor :=
  match ans with
  | ReturnArg => OnSuccess x
  | Return v => OnSuccess v
  | ThrowArg => OnFail x
  | Throw e => OnFail e
  end.

Definition plain (ans : answer) (x : value) : Prop :=
  match ans with
  | ReturnArg => isPromise x = false
  | Return v => isPromise v = false
  | ThrowArg | Throw _ => True
  end.

(** The assignments of [_resolve] or [_reject] on an object whose queues
    are empty. *)
Definition settle_as (how : processor) (o : promise) : promise :=
  match how with
  | Enqueue => o
  | OnSuccess _ => seal how (mark_resolved o)
  | OnFail _ => seal how (mark_rejected o)
  end.

(** A promise that nothing has been done to yet. *)
Definition untried (o : promise) : Prop :=
  _process o = Enqueue /\ _resolve o = Method /\ _reject o = Method
  /\ _onSuccess o = [] /\ _onFail o = [].

(** The arrow of [c] that settles it in the way [how], and the value it
    is called with. *)
Definition arrow_of (how : processor) (c : pid) : closure :=
  match how with
  | OnFail _ => Reject c
  | _ => Resolve c
  end.

Definition value_of (how : processor) : value :=
  match how with
  | OnSuccess v | OnFail v => v
  | Enqueue => VUndefined
  end.

(** ** Scenarios *)

(** [d = Promise.defer(); d.resolve(1)]. *)
Definition resolved_start : state :=
  state_after (invoke 1 (Resolve 0) ThisUndefined (VNum 1) (snd (defer initial))).

(** [d = Promise.defer(); d.reject('no')]. *)
Definition rejected_start : state :=
  state_after
    (invoke 1 (Reject 0) ThisUndefined (VStr "no") (snd (defer initial))).

(** [d = Promise.defer(); d.resolve(1); e = Promise.defer()]. *)
Definition waiting_start : state := snd (defer resolved_start).

(** [d = Promise.defer(); d.resolve(1); e = Promise.defer(); e.resolve(2)]. *)
Definition both_resolved_start : state :=
  state_after (invoke 1 (Resolve 1) ThisUndefined (VNum 2) waiting_start).

End Lifecycle.

(* ===================================================================== *)
(** * Counting what the worker runtime sends, and reading its registry    *)
(* ===================================================================== *)

Module Accounting.
Import JS Runtime.

(** The number of responses among the messages sent. *)
Fixpoint responses (items : list sending) : nat :=
  match items with
  | [] => 0
  | (Response _ _ _, _) :: rest => S (responses rest)
  | _ :: rest => responses rest
  end.

(** The number of promises awaited on behalf of a request. *)
Fixpoint replies (waiting : list (value * continuation)) : nat :=
  match waiting with
  | [] => 0
  | (_, Reply _) :: rest => S (replies rest)
  | _ :: rest => replies rest
  end.



Section Host.

Variable evaluate : value -> value -> execution.
Variable inherited : string -> option func.



End Host.






(** The values that [Object.getOwnPropertyNames] rejects. *)
Definition nullish (v : value) : bool :=
  match v with VUndefined | VNull => true | _ => false end.





(** A worker script whose termination handler throws. *)
Definition failing_cleanup_worker : worker :=
  register None
    (Some {| onTerminate := Some (fun _ => throwing (new_Error "boom")) |})
    loaded.

End Accounting.

(* ===================================================================== *)
(** * The debug port allocator ([src/debug-port-allocator.ts])            *)
(* ===================================================================== *)

Module Ports.

(** A port is a JavaScript number.  The model takes the integers for them:
    it is the code for the integers from [-2^53] to [2^53], which a number
    holds exactly and on which [starting++] adds one as long as the result
    is at most [2^53].  Fractions, [NaN] and the infinities are outside the
    model, and so is an increment beyond [2^53], which a number does not
    make; [exact] and [in_range] say when a call stays inside. *)

Definition MAX_PORTS : Z := 65535.

(** [2^53]. *)
Definition EXACT_LIMIT : Z := 9007199254740992.

(** The fields of a [DebugPortAllocator]. *)
Record DebugPortAllocator := {
  ports : gmap Z bool;
  length : Z
}.

(** [new DebugPortAllocator()]. *)
Definition empty : DebugPortAllocator := {| ports := ∅; length := 0 |}.

(** [while (this.ports[starting] === true) starting++], with a bound on the
    number of turns; [None] when the bound is reached. *)
Fixpoint scan (turns : nat) (held : gmap Z bool) (starting : Z) : option Z :=
  match turns with
  | O => None
  | S turns' =>
      if decide (held !! starting = Some true)
      then scan turns' held (starting + 1)
      else Some starting
  end.

(** A call returns a port and leaves the allocator changed, throws an
    [Error] with a message, or is still in the loop after the turns
    given. *)
Inductive allocation :=
| Allocated (port : Z) (a : DebugPortAllocator)
| LimitReached (message : string)
| StillScanning.

(** [nextAvailableStartingAt(starting)].  The loop passes over held ports
    only, one more at every turn, so one turn more than there are entries
    in [ports] is enough. *)
Definition nextAvailableStartingAt (a : DebugPortAllocator) (starting : Z)
    : allocation :=
  match scan (S (size (ports a))) (ports a) starting with
  | None => StillScanning
  | Some port =>
      if (MAX_PORTS <=? port)%Z
      then LimitReached ("WorkerPool debug port limit reached: "
                           +:+ pretty port +:+ ">= " +:+ pretty MAX_PORTS)
      else Allocated port
             {| ports := <[port := true]> (ports a); length := length a + 1 |}
  end.

(** [releasePort(port)]. *)
Definition releasePort (a : DebugPortAllocator) (port : Z)
    : DebugPortAllocator :=
  {| ports := delete port (ports a); length := length a - 1 |}.

(** The port is held. *)
Definition held (a : DebugPortAllocator) (port : Z) : Prop :=
  ports a !! port = Some true.

(** The argument is an integer that a number holds exactly. *)
Definition exact (starting : Z) : Prop :=
  (- EXACT_LIMIT <= starting <= EXACT_LIMIT)%Z.

(** Every held port is below [2^53], so that the loop never increments
    [2^53]. *)
Definition in_range (a : DebugPortAllocator) : Prop :=
  forall port, held a port -> (port < EXACT_LIMIT)%Z.

(** [length] counts the entries of [ports], and every entry is [true]. *)
Definition counted (a : DebugPortAllocator) : Prop :=
  length a = Z.of_nat (size (ports a))
  /\ forall port v, ports a !! port = Some v -> v = true.

(** An allocator that holds the default inspector port. *)
Definition debugging : DebugPortAllocator :=
  {| ports := <[9229%Z := true]> ∅; length := 0 + 1 |}.

End Ports.

(* ===================================================================== *)
(** * Properties of the deferred handle                                   *)
(* ===================================================================== *)

Module DeferredFacts.
Import JS Deferred.

(** ** Assignments to one object *)

Lemma heap_modify p f s : heap (modify p f s) = alter f p (heap s).
Proof. done. Qed.

Lemma lookup_modify p f s :
  heap (modify p f s) !! p = f <$> heap s !! p.
Proof. by rewrite heap_modify, list_lookup_alter_eq. Qed.

(** ** The heap only grows, [parent] is read-only, [pending] is only ever
    cleared *)

Lemma evolves_refl s : evolves s s.
Proof. split; [|done]. intros p o H. exists o. by repeat split. Qed.

Lemma evolves_trans s1 s2 s3 : evolves s1 s2 -> evolves s2 s3 -> evolves s1 s3.
Proof.
  intros [H1 W1] [H2 W2]. split; [|auto].
  intros p o Hp. destruct (H1 p o Hp) as (o' & Hp' & Hk1 & Hk2).
  destruct (H2 p o' Hp') as (o'' & Hp'' & Hk3 & Hk4).
  exists o''. split; [done|]. split; [congruence|auto].
Qed.

Lemma evolves_same_heap s s' : heap s' = heap s -> evolves s s'.
Proof.
  intros E. split; rewrite E; [|done].
  intros p o H. exists o. by repeat split.
Qed.

Lemma evolves_modify p f s :
  (forall o, keeps o (f o)) -> evolves s (modify p f s).
Proof.
  intros Hf. split.
  - intros p0 o H. simpl. destruct (decide (p = p0)) as [->|Hne].
    + exists (f o). split; [|apply Hf].
      by rewrite list_lookup_alter_eq, H.
    + exists o. split; [by rewrite list_lookup_alter_ne|by split].
  - intros W p0 o q. simpl. destruct (decide (p = p0)) as [->|Hne].
    + rewrite list_lookup_alter_eq.
      destruct (heap s !! p0) as [o0|] eqn:E; [|done].
      intros [= <-] Hq. apply (W p0 o0 q E).
      destruct (Hf o0) as [Hpar _]. congruence.
    + rewrite list_lookup_alter_ne by done. apply W.
Qed.

Lemma evolves_allocate parent s :
  (forall q, parent = Some q -> q < length (heap s)) ->
  evolves s (allocate parent s).
Proof.
  intros Hq. split.
  - intros p o H. exists o. split; [|by split]. simpl.
    rewrite lookup_app_l; [done|]. by eapply lookup_lt_Some.
  - intros W p o q. simpl. rewrite lookup_snoc_Some.
    intros [[_ H]|[-> <-]]; [by apply W|]. simpl. apply Hq.
Qed.

Lemma keeps_mark_resolved o : keeps o (mark_resolved o).
Proof. by split. Qed.
Lemma keeps_mark_rejected o : keeps o (mark_rejected o).
Proof. by split. Qed.
Lemma keeps_seal how o : keeps o (seal how o).
Proof. by split. Qed.
Lemma keeps_push a b o : keeps o (push a b o).
Proof. by split. Qed.

Section Evolution.

Variable call : invocation.
Hypothesis call_evolves : forall f this x s, evolves_to s (call f this x s).

Lemma forEach_evolves fns x s : evolves_to s (forEach call fns x s).
Proof.
  revert s. induction fns as [|fn fns IH]; intros s; simpl.
  - apply evolves_refl.
  - pose proof (call_evolves fn ThisUndefined x s) as H.
    destruct (call fn ThisUndefined x s) as [v s'| | |]; try done.
    pose proof (IH s') as H'.
    destruct (forEach call fns x s'); try done; simpl in *;
      by eapply evolves_trans.
Qed.

Lemma resolve_method_evolves p x s : evolves_to s (resolve_method call p x s).
Proof.
  unfold resolve_method.
  pose proof (evolves_modify p mark_resolved s keeps_mark_resolved) as H1.
  destruct (heap (modify p mark_resolved s) !! p) as [o|]; [|done].
  pose proof (forEach_evolves (_onSuccess o) x (modify p mark_resolved s)) as H2.
  destruct (forEach call _ x _) as [v s2|e s2| |]; simpl in *; try done.
  - eapply evolves_trans; [done|]. eapply evolves_trans; [done|].
    apply evolves_modify, keeps_seal.
  - by eapply evolves_trans.
Qed.

Lemma reject_method_evolves p x s : evolves_to s (reject_method call p x s).
Proof.
  unfold reject_method.
  pose proof (evolves_modify p mark_rejected s keeps_mark_rejected) as H1.
  destruct (heap (modify p mark_rejected s) !! p) as [o|]; [|done].
  pose proof (forEach_evolves (_onFail o) x (modify p mark_rejected s)) as H2.
  destruct (forEach call _ x _) as [v s2|e s2| |]; simpl in *; try done.
  - eapply evolves_trans; [done|]. eapply evolves_trans; [done|].
    apply evolves_modify, keeps_seal.
  - by eapply evolves_trans.
Qed.

Lemma send_resolve_evolves p x s : evolves_to s (send_resolve call p x s).
Proof.
  unfold send_resolve. destruct (heap s !! p) as [o|]; [|done].
  destruct (_resolve o); [apply resolve_method_evolves|apply evolves_refl].
Qed.

Lemma send_reject_evolves p x s : evolves_to s (send_reject call p x s).
Proof.
  unfold send_reject. destruct (heap s !! p) as [o|]; [|done].
  destruct (_reject o); [apply reject_method_evolves|apply evolves_refl].
Qed.

Lemma process_evolves p a b s : evolves_to s (process call p a b s).
Proof.
  unfold process. destruct (heap s !! p) as [o|]; [|done].
  destruct (_process o); [|apply call_evolves..].
  apply evolves_modify, keeps_push.
Qed.

Lemma then_evolves p a b s : evolves_to s (then_ call p a b s).
Proof.
  unfold then_. destruct (heap s !! p) as [o|] eqn:E; [|done].
  assert (H1 : evolves s (allocate (Some p) s)).
  { apply evolves_allocate. intros q [= <-]. by eapply lookup_lt_Some. }
  match goal with |- context [process call p ?sf ?ff ?s1] =>
    pose proof (process_evolves p sf ff s1) as H2;
    destruct (process call p sf ff s1) end; simpl in *; try done;
    by eapply evolves_trans.
Qed.

Lemma cancel_walk_evolves steps p s : evolves_to s (cancel_walk call steps p s).
Proof.
  revert p. induction steps as [|steps IH]; intros p; simpl;
    destruct (heap s !! p) as [o|]; try done;
    destruct (parent o) as [q|]; try done.
  - pose proof (send_reject_evolves p new_CancellationError s) as H.
    by destruct (send_reject call p _ s).
  - pose proof (IH q) as H. by destruct (cancel_walk call steps q s).
  - pose proof (send_reject_evolves p new_CancellationError s) as H.
    by destruct (send_reject call p _ s).
Qed.

Lemma timeout_root_evolves p delay s :
  evolves_to s
    (match always call p (Some (ClearTimeout (length (timers s))))
             (setTimeout (TimedOut delay) s) with
     | Returned _ s2 => Returned (VPromise p) s2
     | o => o
     end).
Proof.
  pose proof (then_evolves p (Some (ClearTimeout (length (timers s))))
                (Some (ClearTimeout (length (timers s))))
                (setTimeout (TimedOut delay) s)) as H.
  unfold always.
  assert (H0 : evolves s (setTimeout (TimedOut delay) s))
    by by apply evolves_same_heap.
  destruct (then_ call p _ _ _); simpl in *; try done;
    by eapply evolves_trans.
Qed.

Lemma timeout_walk_evolves steps p delay s :
  evolves_to s (timeout_walk call steps p delay s).
Proof.
  revert p. induction steps as [|steps IH]; intros p; simpl;
    destruct (heap s !! p) as [o|]; try done;
    destruct (parent o) as [q|]; try done;
    try apply timeout_root_evolves.
  pose proof (IH q) as H. by destruct (timeout_walk call steps q delay s).
Qed.

Lemma fire_evolves t s : evolves_to s (fire call t s).
Proof.
  unfold fire. destruct (timers s !! t) as [T|]; [|apply evolves_refl].
  destruct (armed T); [|apply evolves_refl].
  pose proof (call_evolves (callback T) (ThisTimer t) VUndefined
                (clearTimeout t s)) as H.
  assert (H0 : evolves s (clearTimeout t s)) by by apply evolves_same_heap.
  destruct (call _ _ _ _); simpl in *; try done; by eapply evolves_trans.
Qed.

Lemma perform_evolves body x s : evolves_to s (perform call body x s).
Proof.
  revert s. induction body as [|a body IH]; intros s; simpl.
  - apply evolves_refl.
  - assert (H : forall o, evolves_to s o ->
               evolves_to s match o with
                            | Returned _ s' => perform call body x s'
                            | o => o
                            end).
    { intros [v s'|e s'| |] H; simpl in *; try done.
      pose proof (IH s') as H'.
      destruct (perform call body x s'); simpl in *; try done;
        by eapply evolves_trans. }
    apply H. destruct a as [tag|f y|p|p delay|p a b].
    + by apply evolves_same_heap.
    + apply call_evolves.
    + apply cancel_walk_evolves.
    + apply timeout_walk_evolves.
    + apply then_evolves.
Qed.

Lemma caught_evolves reject e s : evolves_to s (caught call reject e s).
Proof.
  unfold caught. pose proof (call_evolves reject ThisUndefined e s) as H.
  by destruct (call reject ThisUndefined e s).
Qed.

Lemma apply_evolves f this x s : evolves_to s (apply call f this x s).
Proof.
  destruct f as [p|p|callback resolve reject|t|delay|body result]; simpl.
  - apply send_resolve_evolves.
  - apply send_reject_evolves.
  - assert (Hc : forall e s1, evolves s s1 ->
              evolves_to s (caught call reject e s1)).
    { intros e s1 H1. pose proof (caught_evolves reject e s1) as H.
      destruct (caught call reject e s1); simpl in *; try done;
        by eapply evolves_trans. }
    pose proof (call_evolves callback ThisUndefined x s) as H1.
    destruct (call callback ThisUndefined x s) as [res s1|e s1| |];
      simpl in *; try done; [|by apply Hc].
    destruct (isPromise res).
    + destruct res; simpl;
        try (eapply evolves_trans; [done|]; by apply evolves_same_heap).
      pose proof (then_evolves p (Some resolve) (Some reject) s1) as H2.
      destruct (then_ call p _ _ s1) as [v s2|e s2| |]; simpl in *; try done.
      * by eapply evolves_trans.
      * apply Hc. by eapply evolves_trans.
    + pose proof (call_evolves resolve ThisUndefined res s1) as H2.
      destruct (call resolve ThisUndefined res s1) as [v s2|e s2| |];
        simpl in *; try done.
      * by eapply evolves_trans.
      * apply Hc. by eapply evolves_trans.
  - by apply evolves_same_heap.
  - destruct this as [|t|p]; simpl; try apply evolves_refl.
    pose proof (send_reject_evolves p (timed_out delay) s) as H.
    by destruct (send_reject call p _ s).
  - pose proof (perform_evolves body x s) as H.
    destruct (perform call body x s) as [v s'|e s'| |]; simpl in *; try done.
    by destruct result.
Qed.

End Evolution.

Lemma invoke_evolves depth f this x s : evolves_to s (invoke depth f this x s).
Proof.
  revert f this x s. induction depth as [|depth IH]; intros f this x s; simpl.
  - apply evolves_refl.
  - by apply apply_evolves.
Qed.

(** So every state that the methods reach from [initial] has
    [parents_older]. *)
Lemma parents_older_initial : parents_older (heap initial).
Proof. intros p o q H. done. Qed.

Lemma defer_evolves s : evolves s (snd (defer s)).
Proof. apply evolves_allocate. done. Qed.

(** ** Callbacks that do not settle [r] leave its status alone *)

Lemma untouched_refl r s : inert_queues r s -> untouched r s s.
Proof. intros G. split; [done|]. intros o H. by exists o. Qed.

Lemma untouched_trans r s1 s2 s3 :
  untouched r s1 s2 -> untouched r s2 s3 -> untouched r s1 s3.
Proof.
  intros [_ H1] [G H2]. split; [done|]. intros o Ho.
  destruct (H1 o Ho) as (o' & Ho' & E1). destruct (H2 o' Ho') as (o'' & Ho'' & E2).
  exists o''. split; [done|congruence].
Qed.

Lemma untouched_same_heap r s s' :
  inert_queues r s -> heap s' = heap s -> untouched r s s'.
Proof.
  intros G E. split; [unfold inert_queues; by rewrite E|].
  intros o H. exists o. by rewrite E.
Qed.

(** Assigning to the fields of another promise, or to fields that are not
    part of the status. *)
Lemma untouched_modify r p f s :
  inert_queues r s ->
  (forall o, heap s !! p = Some o ->
     Forall (inert r) (_onSuccess (f o)) /\ Forall (inert r) (_onFail (f o))) ->
  (p = r -> forall o, status (f o) = status o) ->
  untouched r s (modify p f s).
Proof.
  intros [Hr G] Hq Hst. split; [split|].
  - by rewrite heap_modify, length_alter.
  - intros p0 o. rewrite heap_modify. destruct (decide (p = p0)) as [->|Hne].
    + rewrite list_lookup_alter_eq.
      destruct (heap s !! p0) as [o0|] eqn:E; [|done].
      intros [= <-]. by apply Hq.
    + rewrite list_lookup_alter_ne by done. apply G.
  - intros o Ho. rewrite heap_modify. destruct (decide (p = r)) as [->|Hne].
    + exists (f o). split; [by rewrite list_lookup_alter_eq, Ho|by apply Hst].
    + exists o. split; [by rewrite list_lookup_alter_ne|done].
Qed.

Lemma untouched_allocate r parent s :
  inert_queues r s -> untouched r s (allocate parent s).
Proof.
  intros [Hr G]. split; [split|].
  - simpl. rewrite length_app. simpl. lia.
  - intros p o. simpl. rewrite lookup_snoc_Some.
    intros [[_ H]|[_ <-]]; [by eapply G|]. by split.
  - intros o Ho. exists o. split; [|done]. simpl.
    rewrite lookup_app_l; [done|]. by eapply lookup_lt_Some.
Qed.

Section Untouched.

Variable r : pid.
Variable call : invocation.
Hypothesis call_untouched :
  forall f this x s,
    inert r f -> this <> ThisPromise r -> inert_queues r s ->
    untouched_by r s (call f this x s).

Lemma forEach_untouched fns x s :
  Forall (inert r) fns -> inert_queues r s ->
  untouched_by r s (forEach call fns x s).
Proof.
  intros Hfns. revert s. induction Hfns as [|fn fns Hfn Hfns IH]; intros s G; simpl.
  - by apply untouched_refl.
  - pose proof (call_untouched fn ThisUndefined x s Hfn ltac:(done) G) as H.
    destruct (call fn ThisUndefined x s) as [v s'| | |]; try done.
    simpl in H. pose proof (IH s' (proj1 H)) as H'.
    destruct (forEach call fns x s'); try done; simpl in *;
      by eapply untouched_trans.
Qed.

Lemma mark_untouched p (f : promise -> promise) s :
  p <> r -> inert_queues r s ->
  (forall o, _onSuccess (f o) = _onSuccess o /\ _onFail (f o) = _onFail o) ->
  untouched r s (modify p f s).
Proof.
  intros Hne G Hf. apply untouched_modify; [done| |done].
  intros o Ho. destruct (Hf o) as [-> ->]. by apply (proj2 G) in Ho.
Qed.

Lemma resolve_method_untouched p x s :
  p <> r -> inert_queues r s -> untouched_by r s (resolve_method call p x s).
Proof.
  intros Hne G. unfold resolve_method.
  assert (H1 : untouched r s (modify p mark_resolved s))
    by by apply mark_untouched.
  destruct (heap (modify p mark_resolved s) !! p) as [o|] eqn:E; [|done].
  pose proof (forEach_untouched (_onSuccess o) x (modify p mark_resolved s)
                (proj1 (proj2 (proj1 H1) p o E)) (proj1 H1)) as H2.
  destruct (forEach call _ x _) as [v s2|e s2| |]; simpl in *; try done.
  - eapply untouched_trans; [done|]. eapply untouched_trans; [done|].
    apply mark_untouched; [done|by destruct H2|done].
  - by eapply untouched_trans.
Qed.

Lemma reject_method_untouched p x s :
  p <> r -> inert_queues r s -> untouched_by r s (reject_method call p x s).
Proof.
  intros Hne G. unfold reject_method.
  assert (H1 : untouched r s (modify p mark_rejected s))
    by by apply mark_untouched.
  destruct (heap (modify p mark_rejected s) !! p) as [o|] eqn:E; [|done].
  pose proof (forEach_untouched (_onFail o) x (modify p mark_rejected s)
                (proj2 (proj2 (proj1 H1) p o E)) (proj1 H1)) as H2.
  destruct (forEach call _ x _) as [v s2|e s2| |]; simpl in *; try done.
  - eapply untouched_trans; [done|]. eapply untouched_trans; [done|].
    apply mark_untouched; [done|by destruct H2|done].
  - by eapply untouched_trans.
Qed.

Lemma send_resolve_untouched p x s :
  p <> r -> inert_queues r s -> untouched_by r s (send_resolve call p x s).
Proof.
  intros Hne G. unfold send_resolve. destruct (heap s !! p) as [o|]; [|done].
  destruct (_resolve o);
    [by apply resolve_method_untouched|by apply untouched_refl].
Qed.

Lemma send_reject_untouched p x s :
  p <> r -> inert_queues r s -> untouched_by r s (send_reject call p x s).
Proof.
  intros Hne G. unfold send_reject. destruct (heap s !! p) as [o|]; [|done].
  destruct (_reject o);
    [by apply reject_method_untouched|by apply untouched_refl].
Qed.

Lemma process_untouched p a b s :
  inert r a -> inert r b -> inert_queues r s ->
  untouched_by r s (process call p a b s).
Proof.
  intros Ha Hb G. unfold process. destruct (heap s !! p) as [o|] eqn:E; [|done].
  destruct (_process o); [|by apply call_untouched..].
  apply untouched_modify; [done| |done].
  intros o0 Ho0. apply (proj2 G) in Ho0 as [H1 H2]. simpl.
  split; apply Forall_app; split; try done; by repeat constructor.
Qed.

Lemma then_untouched p a b s :
  inert_option r a -> inert_option r b -> inert_queues r s ->
  untouched_by r s (then_ call p a b s).
Proof.
  intros Ha Hb G. unfold then_. destruct (heap s !! p) as [o|] eqn:E; [|done].
  pose proof (untouched_allocate r (Some p) s G) as H1.
  assert (Hc : length (heap s) <> r) by (destruct G; lia).
  match goal with |- context [process call p ?sf ?ff ?s1] =>
    assert (Hsf : inert r sf) by (destruct a; simpl in *; done);
    assert (Hff : inert r ff) by (destruct b; simpl in *; done);
    pose proof (process_untouched p sf ff s1 Hsf Hff (proj1 H1)) as H2;
    destruct (process call p sf ff s1) end; simpl in *; try done;
    by eapply untouched_trans.
Qed.

Lemma timeout_walk_untouched steps p delay s :
  inert_queues r s -> untouched_by r s (timeout_walk call steps p delay s).
Proof.
  intros G. revert p.
  assert (Hroot : forall p,
    untouched_by r s
      (match always call p (Some (ClearTimeout (length (timers s))))
               (setTimeout (TimedOut delay) s) with
       | Returned _ s2 => Returned (VPromise p) s2
       | o => o
       end)).
  { intros p.
    assert (H0 : untouched r s (setTimeout (TimedOut delay) s))
      by by apply untouched_same_heap.
    pose proof (then_untouched p (Some (ClearTimeout (length (timers s))))
                  (Some (ClearTimeout (length (timers s))))
                  (setTimeout (TimedOut delay) s) I I (proj1 H0)) as H.
    unfold always. destruct (then_ call p _ _ _); simpl in *; try done;
      by eapply untouched_trans. }
  induction steps as [|steps IH]; intros p; simpl;
    destruct (heap s !! p) as [o|]; try done;
    destruct (parent o) as [q|]; try done; try apply Hroot.
  pose proof (IH q) as H. by destruct (timeout_walk call steps q delay s).
Qed.

Lemma perform_untouched body x s :
  inert r (User body ReturnArg) -> inert_queues r s ->
  untouched_by r s (perform call body x s).
Proof.
  revert s. induction body as [|a body IH]; intros s Hbody G; simpl.
  - by apply untouched_refl.
  - destruct Hbody as [Ha Hbody].
    assert (H : forall o, untouched_by r s o ->
               untouched_by r s match o with
                                | Returned _ s' => perform call body x s'
                                | o => o
                                end).
    { intros [v s'|e s'| |] H; simpl in *; try done.
      pose proof (IH s' Hbody (proj1 H)) as H'.
      destruct (perform call body x s'); simpl in *; try done;
        by eapply untouched_trans. }
    apply H. destruct a as [tag|f y|p|p delay|p a b]; simpl in Ha.
    + by apply untouched_same_heap.
    + by apply call_untouched.
    + done.
    + by apply timeout_walk_untouched.
    + destruct Ha. by apply then_untouched.
Qed.

Lemma caught_untouched reject e s :
  inert r reject -> inert_queues r s ->
  untouched_by r s (caught call reject e s).
Proof.
  intros Hrej G. unfold caught.
  pose proof (call_untouched reject ThisUndefined e s Hrej ltac:(done) G) as H.
  by destruct (call reject ThisUndefined e s).
Qed.

Lemma apply_untouched f this x s :
  inert r f -> this <> ThisPromise r -> inert_queues r s ->
  untouched_by r s (apply call f this x s).
Proof.
  intros Hf Hthis G.
  destruct f as [p|p|callback resolve reject|t|delay|body result]; simpl.
  - by apply send_resolve_untouched.
  - by apply send_reject_untouched.
  - destruct Hf as (Hcb & Hres & Hrej).
    assert (Hc : forall e s1, untouched r s s1 ->
              untouched_by r s (caught call reject e s1)).
    { intros e s1 H1.
      pose proof (caught_untouched reject e s1 Hrej (proj1 H1)) as H.
      destruct (caught call reject e s1); simpl in *; try done;
        by eapply untouched_trans. }
    pose proof (call_untouched callback ThisUndefined x s Hcb ltac:(done) G)
      as H1.
    destruct (call callback ThisUndefined x s) as [res s1|e s1| |];
      simpl in *; try done; [|by apply Hc].
    destruct (isPromise res).
    + destruct res; simpl;
        try (eapply untouched_trans; [done|];
             by apply untouched_same_heap; [apply H1|]).
      pose proof (then_untouched p (Some resolve) (Some reject) s1
                    Hres Hrej (proj1 H1)) as H2.
      destruct (then_ call p _ _ s1) as [v s2|e s2| |]; simpl in *; try done.
      * by eapply untouched_trans.
      * apply Hc. by eapply untouched_trans.
    + pose proof (call_untouched resolve ThisUndefined res s1 Hres
                    ltac:(done) (proj1 H1)) as H2.
      destruct (call resolve ThisUndefined res s1) as [v s2|e s2| |];
        simpl in *; try done.
      * by eapply untouched_trans.
      * apply Hc. by eapply untouched_trans.
  - by apply untouched_same_heap.
  - destruct this as [|t|p]; simpl; try by apply untouched_refl.
    assert (Hp : p <> r) by congruence.
    pose proof (send_reject_untouched p (timed_out delay) s Hp G) as H.
    by destruct (send_reject call p _ s).
  - pose proof (perform_untouched body x s Hf G) as H.
    destruct (perform call body x s) as [v s'|e s'| |]; simpl in *; try done.
    by destruct result.
Qed.

End Untouched.

Lemma invoke_untouched r depth f this x s :
  inert r f -> this <> ThisPromise r -> inert_queues r s ->
  untouched_by r s (invoke depth f this x s).
Proof.
  revert f this x s. induction depth as [|depth IH]; intros f this x s; simpl.
  - intros _ _ G. by apply untouched_refl.
  - by apply apply_untouched.
Qed.

(** ** Walking to the root *)

Lemma root_of_allocated h p r : root_of h p r -> exists o, h !! r = Some o /\ parent o = None.
Proof. induction 1; eauto. Qed.

Lemma cancel_walk_root call s p r :
  parents_older (heap s) -> root_of (heap s) p r ->
  forall steps, p <= steps ->
  cancel_walk call steps p s
  = match send_reject call r new_CancellationError s with
    | Returned _ s' => Returned (VPromise p) s'
    | out => out
    end.
Proof.
  intros W. induction 1 as [p o Hp Hpar|p o q r Hp Hpar Hq IH]; intros steps Hsteps.
  - destruct steps; simpl; by rewrite Hp, Hpar.
  - pose proof (W p o q Hp Hpar) as Hlt.
    destruct steps as [|steps]; [lia|]. simpl. rewrite Hp, Hpar.
    rewrite IH by lia. by destruct (send_reject call r _ s).
Qed.

Lemma timeout_walk_root call s p r delay :
  parents_older (heap s) -> root_of (heap s) p r ->
  forall steps, p <= steps ->
  timeout_walk call steps p delay s
  = match always call r (Some (ClearTimeout (length (timers s))))
            (setTimeout (TimedOut delay) s) with
    | Returned _ s' => Returned (VPromise p) s'
    | out => out
    end.
Proof.
  intros W. induction 1 as [p o Hp Hpar|p o q r Hp Hpar Hq IH]; intros steps Hsteps.
  - destruct steps; simpl; by rewrite Hp, Hpar.
  - pose proof (W p o q Hp Hpar) as Hlt.
    destruct steps as [|steps]; [lia|]. simpl. rewrite Hp, Hpar.
    rewrite IH by lia. by destruct (always call r _ _).
Qed.

Lemma inert_queues_mark r p (f : promise -> promise) s :
  inert_queues r s ->
  (forall o, _onSuccess (f o) = _onSuccess o /\ _onFail (f o) = _onFail o) ->
  inert_queues r (modify p f s).
Proof.
  intros [Hr G] Hf. split; [by rewrite heap_modify, length_alter|].
  intros p0 o. rewrite heap_modify. destruct (decide (p = p0)) as [->|Hne].
  - rewrite list_lookup_alter_eq.
    destruct (heap s !! p0) as [o0|] eqn:E; [|done].
    intros [= <-]. destruct (Hf o0) as [-> ->]. by eapply G.
  - rewrite list_lookup_alter_ne by done. apply G.
Qed.

(** ** Settlement, when no callback calls back into the promise *)

Lemma settled_ignores_resolve call p o x s :
  heap s !! p = Some o -> _resolve o = Noop ->
  send_resolve call p x s = Returned VUndefined s.
Proof. intros H1 H2. unfold send_resolve. by rewrite H1, H2. Qed.

Lemma settled_ignores_reject call p o x s :
  heap s !! p = Some o -> _reject o = Noop ->
  send_reject call p x s = Returned VUndefined s.
Proof. intros H1 H2. unfold send_reject. by rewrite H1, H2. Qed.

Lemma settled_process_is_immediate call p o a b s :
  heap s !! p = Some o ->
  process call p a b s
  = match _process o with
    | Enqueue => Returned VUndefined (modify p (push a b) s)
    | OnSuccess result => call a ThisUndefined result s
    | OnFail error => call b ThisUndefined error s
    end.
Proof. intros H. unfold process. by rewrite H. Qed.

(** A deferred whose callbacks do not settle it again is settled for good
    by [_resolve]: when the queued callbacks have returned, it is marked
    resolved, hands the result to every later callback, and ignores
    [resolve] and [reject]. *)
Lemma resolve_seals depth s p o x u s1 :
  heap s !! p = Some o ->
  _resolve o = Method ->
  inert_queues p s ->
  forEach (invoke depth) (_onSuccess o) x (modify p mark_resolved s)
  = Returned u s1 ->
  exists o1,
    send_resolve (invoke depth) p x s
    = Returned (VPromise p) (modify p (seal (OnSuccess x)) s1)
    /\ heap (modify p (seal (OnSuccess x)) s1) !! p
       = Some (seal (OnSuccess x) o1)
    /\ resolved o1 = true /\ rejected o1 = false /\ pending o1 = false.
Proof.
  intros Hp Hmethod G Hrun.
  assert (Hp1 : heap (modify p mark_resolved s) !! p = Some (mark_resolved o))
    by (by rewrite lookup_modify, Hp).
  assert (G1 : inert_queues p (modify p mark_resolved s))
    by by apply inert_queues_mark.
  pose proof (forEach_untouched p (invoke depth) (invoke_untouched p depth)
                (_onSuccess o) x (modify p mark_resolved s)
                (proj1 (proj2 G p o Hp)) G1) as Hun.
  rewrite Hrun in Hun. destruct Hun as [_ Hun].
  destruct (Hun _ Hp1) as (o1 & Ho1 & Hst).
  exists o1. split; [|split].
  - unfold send_resolve. rewrite Hp, Hmethod. unfold resolve_method.
    rewrite Hp1. simpl _onSuccess. by rewrite Hrun.
  - by rewrite lookup_modify, Ho1.
  - unfold status in Hst. simpl in Hst. by injection Hst as -> -> -> _ _ _.
Qed.

(** Callbacks run in the order in which [_process] queued them. *)
Lemma queued_callbacks_run_in_order call a b fns x s :
  forEach call (fns ++ [a; b]) x s
  = match forEach call fns x s with
    | Returned _ s1 =>
        match call a ThisUndefined x s1 with
        | Returned _ s2 =>
            match call b ThisUndefined x s2 with
            | Returned _ s3 => Returned VUndefined s3
            | out => out
            end
        | out => out
        end
    | out => out
    end.
Proof.
  revert s. induction fns as [|fn fns IH]; intros s; simpl.
  - destruct (call a ThisUndefined x s); try done.
  - destruct (call fn ThisUndefined x s); try done.
Qed.

(** A callback registered by a callback that runs during settlement is
    queued after [forEach] has fixed the elements it visits, and [_process]
    is replaced only afterwards: the deferred ends resolved, the callback
    sits in [_onSuccess], and it has not been called. *)
Lemma callback_registered_during_settlement_is_lost :
  exists s o,
    invoke 6 (Resolve 0) ThisUndefined (VNum 1) nested_then_start
    = Returned (VPromise 0) s
    /\ heap s !! 0 = Some o
    /\ resolved o = true /\ _process o = OnSuccess (VNum 1)
    /\ length (_onSuccess o) = 2
    /\ console s = [].
Proof.
  do 2 eexists. split; [vm_compute; reflexivity|].
  repeat split; reflexivity.
Qed.

(** On a resolved promise, [then] with a callback that returns a value
    which is not a promise gives a child resolved with that very value. *)
Lemma child_resolves_with_plain_value depth s p o x res :
  heap s !! p = Some o ->
  _process o = OnSuccess x ->
  isPromise res = false ->
  then_ (invoke (3 + depth)) p (Some (User [] (Return res))) None s
  = Returned (VPromise (length (heap s)))
      (modify (length (heap s)) (seal (OnSuccess res))
         (modify (length (heap s)) mark_resolved (allocate (Some p) s))).
Proof.
  intros Hp Hq Hres.
  assert (Hp1 : heap (allocate (Some p) s) !! p = Some o).
  { simpl. rewrite lookup_app_l; [done|]. by eapply lookup_lt_Some. }
  assert (Hc : heap (allocate (Some p) s) !! length (heap s)
               = Some (fresh (Some p))).
  { simpl. by apply list_lookup_middle. }
  unfold then_. rewrite Hp. unfold process. rewrite Hp1, Hq.
  change (invoke (3 + depth)) with (apply (invoke (2 + depth))).
  cbn [apply].
  change (invoke (2 + depth)) with (apply (invoke (1 + depth))).
  cbn [apply perform]. rewrite Hres. cbn [apply].
  unfold send_resolve. rewrite Hc. cbn [_resolve fresh].
  unfold resolve_method. rewrite lookup_modify, Hc. reflexivity.
Qed.

(** Whatever the state, the callback that [timeout] arms throws when the
    host runs it, and changes no promise. *)
Lemma timed_out_callback_throws depth t delay s :
  timers s !! t = Some {| callback := TimedOut delay; armed := true |} ->
  fire (invoke (S depth)) t s
  = Thrown (new_TypeError "this._reject is not a function") (clearTimeout t s)
  /\ heap (clearTimeout t s) = heap s.
Proof. intros H. unfold fire. by rewrite H. Qed.

(** When the deferred settles before the timer is due, the timer is
    cleared. *)
Lemma settling_clears_the_timer :
  timers timer_start = [{| callback := TimedOut (Some 10%Z); armed := true |}]
  /\ timers (state_after (invoke 4 (Resolve 0) ThisUndefined (VNum 1) timer_start))
     = [{| callback := TimedOut (Some 10%Z); armed := false |}]
  /\ timers (state_after (invoke 4 (Reject 0) ThisUndefined (VNum 1) timer_start))
     = [{| callback := TimedOut (Some 10%Z); armed := false |}].
Proof. by vm_compute. Qed.

(** ** A promise whose settlement is complete stays as it is *)

Lemma has_status_same_heap r st s s' :
  heap s' = heap s -> has_status r st s -> has_status r st s'.
Proof. intros E (o & H & Hst). exists o. by rewrite E. Qed.

Lemma has_status_modify r st p f s :
  (p = r -> forall o, status (f o) = status o) ->
  has_status r st s -> has_status r st (modify p f s).
Proof.
  intros Hf (o & H & Hst). destruct (decide (p = r)) as [->|Hne].
  - exists (f o). split; [by rewrite lookup_modify, H|]. by rewrite Hf.
  - exists o. split; [|done]. by rewrite heap_modify, list_lookup_alter_ne.
Qed.

Lemma has_status_allocate r st parent s :
  has_status r st s -> has_status r st (allocate parent s).
Proof.
  intros (o & H & Hst). exists o. split; [|done]. simpl.
  rewrite lookup_app_l; [done|]. by eapply lookup_lt_Some.
Qed.

Section Complete.

Variable r : pid.
Variable st : bool * bool * bool * processor * settler * settler.
Hypothesis st_complete : complete st.
Variable call : invocation.
Hypothesis call_keeps :
  forall f this x s, has_status r st s -> keeps_status r st (call f this x s).

Lemma complete_fields s o :
  has_status r st s -> heap s !! r = Some o ->
  _process o <> Enqueue /\ _resolve o = Noop /\ _reject o = Noop.
Proof.
  intros (o' & H & Hst) Ho. assert (o' = o) as -> by congruence.
  unfold status in Hst. destruct st as [[[[[? ?] ?] how] res] rej].
  injection Hst as _ _ _ <- <- <-. exact st_complete.
Qed.

Lemma forEach_keeps fns x s :
  has_status r st s -> keeps_status r st (forEach call fns x s).
Proof.
  revert s. induction fns as [|fn fns IH]; intros s Hs; simpl; [done|].
  pose proof (call_keeps fn ThisUndefined x s Hs) as H.
  destruct (call fn ThisUndefined x s) as [v s'| | |]; try done.
  by apply IH.
Qed.

(** The two settling methods, on another promise than [r]. *)
Lemma settling_keeps (mark : promise -> promise)
    (queue : promise -> list closure) (how : processor) p x s :
  p <> r ->
  has_status r st s ->
  keeps_status r st
    (match heap (modify p mark s) !! p with
     | None => Dangling
     | Some o =>
         match forEach call (queue o) x (modify p mark s) with
         | Returned _ s2 => Returned (VPromise p) (modify p (seal how) s2)
         | o => o
         end
     end).
Proof.
  intros Hne Hs.
  assert (H1 : has_status r st (modify p mark s))
    by (by apply has_status_modify).
  destruct (heap (modify p mark s) !! p) as [o|]; [|done].
  pose proof (forEach_keeps (queue o) x _ H1) as H2.
  destruct (forEach call _ x _) as [v s2|e s2| |]; simpl in *; try done.
  by apply has_status_modify.
Qed.

Lemma send_resolve_keeps p x s :
  has_status r st s -> keeps_status r st (send_resolve call p x s).
Proof.
  intros Hs. unfold send_resolve. destruct (heap s !! p) as [o|] eqn:E; [|done].
  destruct (decide (p = r)) as [->|Hne].
  - destruct (complete_fields s o Hs E) as (_ & -> & _). done.
  - destruct (_resolve o); [|done].
    by apply (settling_keeps mark_resolved _onSuccess (OnSuccess x)).
Qed.

Lemma send_reject_keeps p x s :
  has_status r st s -> keeps_status r st (send_reject call p x s).
Proof.
  intros Hs. unfold send_reject. destruct (heap s !! p) as [o|] eqn:E; [|done].
  destruct (decide (p = r)) as [->|Hne].
  - destruct (complete_fields s o Hs E) as (_ & _ & ->). done.
  - destruct (_reject o); [|done].
    by apply (settling_keeps mark_rejected _onFail (OnFail x)).
Qed.

Lemma process_keeps p a b s :
  has_status r st s -> keeps_status r st (process call p a b s).
Proof.
  intros Hs. unfold process. destruct (heap s !! p) as [o|]; [|done].
  destruct (_process o); [|by apply call_keeps..].
  by apply has_status_modify.
Qed.

Lemma then_keeps p a b s :
  has_status r st s -> keeps_status r st (then_ call p a b s).
Proof.
  intros Hs. unfold then_. destruct (heap s !! p) as [o|]; [|done].
  match goal with |- context [process call p ?sf ?ff ?s1] =>
    pose proof (process_keeps p sf ff s1 (has_status_allocate _ _ _ _ Hs)) as H;
    by destruct (process call p sf ff s1) end.
Qed.

Lemma cancel_walk_keeps steps p s :
  has_status r st s -> keeps_status r st (cancel_walk call steps p s).
Proof.
  intros Hs. revert p. induction steps as [|steps IH]; intros p; simpl;
    destruct (heap s !! p) as [o|]; try done;
    destruct (parent o) as [q|]; try done.
  - pose proof (send_reject_keeps p new_CancellationError s Hs) as H.
    by destruct (send_reject call p _ s).
  - pose proof (IH q) as H. by destruct (cancel_walk call steps q s).
  - pose proof (send_reject_keeps p new_CancellationError s Hs) as H.
    by destruct (send_reject call p _ s).
Qed.

Lemma timeout_walk_keeps steps p delay s :
  has_status r st s -> keeps_status r st (timeout_walk call steps p delay s).
Proof.
  intros Hs.
  assert (Hroot : forall p : nat,
    keeps_status r st
      (match always call p (Some (ClearTimeout (length (timers s))))
               (setTimeout (TimedOut delay) s) with
       | Returned _ s2 => Returned (VPromise p) s2
       | o => o
       end)).
  { clear p. intros p. unfold always.
    pose proof (then_keeps p (Some (ClearTimeout (length (timers s))))
                  (Some (ClearTimeout (length (timers s))))
                  (setTimeout (TimedOut delay) s)
                  (has_status_same_heap r st s _ eq_refl Hs)) as H.
    by destruct (then_ call p _ _ _). }
  revert p. induction steps as [|steps IH]; intros p; simpl;
    destruct (heap s !! p) as [o|]; try done;
    destruct (parent o) as [q|]; try done; try apply Hroot.
  pose proof (IH q) as H. by destruct (timeout_walk call steps q delay s).
Qed.

Lemma perform_keeps body x s :
  has_status r st s -> keeps_status r st (perform call body x s).
Proof.
  revert s. induction body as [|a body IH]; intros s Hs; simpl; [done|].
  assert (H : forall o, keeps_status r st o ->
               keeps_status r st match o with
                                 | Returned _ s' => perform call body x s'
                                 | o => o
                                 end).
  { intros [v s'|e s'| |] H; simpl in *; try done. by apply IH. }
  apply H. destruct a as [tag|f y|p|p delay|p a b].
  - by apply (has_status_same_heap r st s).
  - by apply call_keeps.
  - by apply cancel_walk_keeps.
  - by apply timeout_walk_keeps.
  - by apply then_keeps.
Qed.

Lemma caught_keeps reject e s :
  has_status r st s -> keeps_status r st (caught call reject e s).
Proof.
  intros Hs. unfold caught. pose proof (call_keeps reject ThisUndefined e s Hs) as H.
  by destruct (call reject ThisUndefined e s).
Qed.

Lemma apply_keeps f this x s :
  has_status r st s -> keeps_status r st (apply call f this x s).
Proof.
  intros Hs.
  destruct f as [p|p|callback resolve reject|t|delay|body result]; simpl.
  - by apply send_resolve_keeps.
  - by apply send_reject_keeps.
  - pose proof (call_keeps callback ThisUndefined x s Hs) as H1.
    destruct (call callback ThisUndefined x s) as [res s1|e s1| |];
      simpl in *; try done; [|by apply caught_keeps].
    destruct (isPromise res).
    + destruct res; simpl; try by apply (has_status_same_heap r st s1).
      pose proof (then_keeps p (Some resolve) (Some reject) s1 H1) as H2.
      destruct (then_ call p _ _ s1) as [v s2|e s2| |]; simpl in *; try done.
      by apply caught_keeps.
    + pose proof (call_keeps resolve ThisUndefined res s1 H1) as H2.
      destruct (call resolve ThisUndefined res s1) as [v s2|e s2| |];
        simpl in *; try done.
      by apply caught_keeps.
  - by apply (has_status_same_heap r st s).
  - destruct this as [|t|p]; simpl; try done.
    pose proof (send_reject_keeps p (timed_out delay) s Hs) as H.
    by destruct (send_reject call p _ s).
  - pose proof (perform_keeps body x s Hs) as H.
    destruct (perform call body x s) as [v s'|e s'| |]; simpl in *; try done.
    by destruct result.
Qed.

End Complete.

Lemma invoke_keeps r st depth f this x s :
  complete st -> has_status r st s ->
  keeps_status r st (invoke depth f this x s).
Proof.
  intros Hst. revert f this x s.
  induction depth as [|depth IH]; intros f this x s Hs; simpl.
  - done.
  - by apply apply_keeps.
Qed.

(** ** The specified properties of the deferred handle *)

(** C1.  [timeout(delay)] on a pending deferred without parent arms a timer
    and queues the callback that clears it.  When the host runs the timer,
    the callback [function () { this._reject(..) }] is called with the
    timer as [this], not with the deferred: it throws a [TypeError], and
    the deferred is left as it was, pending and not rejected.  The
    specification says the deferred is rejected with a Timeout error. *)
Theorem timer_callback_does_not_reject
    (depth : nat) (s : state) (p : pid) (o : promise) (delay : option Z) :
  heap s !! p = Some o ->
  parent o = None ->
  _process o = Enqueue ->
  let t := length (timers s) in
  let clear := Then (ClearTimeout t) (Resolve (length (heap s)))
                 (Reject (length (heap s))) in
  exists s',
    timeout (invoke depth) p delay s = Returned (VPromise p) s'
    /\ timers s' !! t = Some {| callback := TimedOut delay; armed := true |}
    /\ heap s' !! p = Some (push clear clear o)
    /\ fire (invoke (S depth)) t s'
       = Thrown (new_TypeError "this._reject is not a function")
           (clearTimeout t s')
    /\ heap (clearTimeout t s') !! p = Some (push clear clear o)
    /\ pending (push clear clear o) = pending o
    /\ rejected (push clear clear o) = rejected o.
Proof.
  intros Hp Hpar Hq t clear.
  assert (Hp1 : heap (allocate (Some p) (setTimeout (TimedOut delay) s)) !! p
                = Some o).
  { simpl. rewrite lookup_app_l; [done|]. by eapply lookup_lt_Some. }
  assert (Ht : forall T, (timers s ++ [T]) !! t = Some T)
    by (intros T; by apply list_lookup_middle).
  eexists. split.
  - unfold timeout. destruct p; simpl; rewrite Hp, Hpar; unfold always, then_;
      simpl heap at 1; rewrite Hp; unfold process; rewrite Hp1, Hq; reflexivity.
  - simpl. rewrite Ht. split; [done|].
    assert (Hlen : p < length (heap s)) by by eapply lookup_lt_Some.
    rewrite list_lookup_alter_eq, lookup_app_l, Hp by done.
    split; [done|]. split; [|done].
    unfold fire. simpl. by rewrite Ht.
Qed.

Lemma timer_callback_does_not_reject_witness :
  exists s' o,
    timeout (invoke 0) 0 (Some 10%Z) (snd (defer initial))
    = Returned (VPromise 0) s'
    /\ fire (invoke 1) 0 s'
       = Thrown (new_TypeError "this._reject is not a function")
           (clearTimeout 0 s')
    /\ heap (clearTimeout 0 s') !! 0 = Some o
    /\ pending o = true
    /\ rejected o = false.
Proof.
  destruct (timer_callback_does_not_reject 0 (snd (defer initial)) 0
              (fresh None) (Some 10%Z) eq_refl eq_refl eq_refl)
    as (s' & H1 & _ & _ & H4 & H5 & H6 & H7).
  exists s'. eexists. split; [exact H1|]. split; [exact H4|].
  split; [exact H5|]. split; [exact H6|exact H7].
Defined.

(** C5.  A callback that runs while the deferred resolves finds [_reject]
    still in place, the no-ops being assigned after the callbacks have run.
    With [d.promise.then(() => d.reject('late'))] queued, [d.resolve(1)]
    ends with the deferred marked rejected, its child rejected with
    ['late'], and [_process] handing [1] to every later callback as a
    success.  The specification says a deferred changes
    state at most once. *)
Theorem reject_during_resolve_changes_state :
  exists s o child,
    invoke 6 (Resolve 0) ThisUndefined (VNum 1) reentrant_start
    = Returned (VPromise 0) s
    /\ heap s !! 0 = Some o
    /\ resolved o = false /\ rejected o = true /\ pending o = false
    /\ _process o = OnSuccess (VNum 1)
    /\ heap s !! 1 = Some child
    /\ _process child = OnFail (VStr "late").
Proof.
  do 3 eexists. split; [vm_compute; reflexivity|].
  repeat split; reflexivity.
Qed.

(** C6, as amended.  [cancel()] on [p] is the call of [_reject] with a
    Cancellation error on the root [r] of [p].  When the settlement of the
    root is complete ([_process], [_resolve] and [_reject] have been
    replaced; for the first part that [_reject] has been is enough),
    nothing changes at all, and nothing called later changes the status of
    the root.  When the root is pending, it is marked rejected and
    its [onFail] callbacks run with the error; when they return, the root
    is no longer pending, hands the Cancellation error to every callback
    registered later, ignores further calls of [resolve] and [reject], and
    keeps this status whatever is called later; and when no callback queued
    anywhere settles the root, the root is left marked rejected.  A root
    that is neither, marked settled while its callbacks are still running,
    is not covered. *)
Theorem cancel_rejects_the_root
    (depth : nat) (s : state) (p r : pid) (o : promise) :
  parents_older (heap s) ->
  root_of (heap s) p r ->
  heap s !! r = Some o ->
  cancel (invoke depth) p s
  = match send_reject (invoke depth) r new_CancellationError s with
    | Returned _ s' => Returned (VPromise p) s'
    | out => out
    end
  /\ (_reject o = Noop -> cancel (invoke depth) p s = Returned (VPromise p) s)
  /\ (complete (status o) ->
      forall depth' f this x,
        keeps_status r (status o) (invoke depth' f this x s))
  /\ (pending o = true ->
      _reject o = Method ->
      forall u s1,
        forEach (invoke depth) (_onFail o) new_CancellationError
          (modify r mark_rejected s) = Returned u s1 ->
        exists o1,
          heap s1 !! r = Some o1
          /\ pending o1 = false
          /\ cancel (invoke depth) p s
             = Returned (VPromise p)
                 (modify r (seal (OnFail new_CancellationError)) s1)
          /\ heap (modify r (seal (OnFail new_CancellationError)) s1) !! r
             = Some (seal (OnFail new_CancellationError) o1)
          /\ (inert_queues r s -> rejected o1 = true /\ resolved o1 = false)
          /\ forall depth' f this x,
               keeps_status r (status (seal (OnFail new_CancellationError) o1))
                 (invoke depth' f this x
                    (modify r (seal (OnFail new_CancellationError)) s1))).
Proof.
  intros W Hroot Hr.
  assert (Hwalk := cancel_walk_root (invoke depth) s p r W Hroot p (le_n p)).
  fold (cancel (invoke depth) p s) in Hwalk.
  split; [exact Hwalk|]. split; [|split].
  - intros Hnoop. rewrite Hwalk. unfold send_reject. by rewrite Hr, Hnoop.
  - intros Hc depth' f this x. apply invoke_keeps; [done|]. by exists o.
  - intros _ Hmethod u s1 Hrun.
    assert (Hr1 : heap (modify r mark_rejected s) !! r = Some (mark_rejected o))
      by (by rewrite lookup_modify, Hr).
    pose proof (forEach_evolves (invoke depth) (invoke_evolves depth)
                  (_onFail o) new_CancellationError (modify r mark_rejected s))
      as Hev.
    rewrite Hrun in Hev. destruct Hev as [Hev _].
    destruct (Hev r _ Hr1) as (o1 & Ho1 & _ & Hpending).
    assert (Hsealed : heap (modify r (seal (OnFail new_CancellationError)) s1)
                        !! r
                      = Some (seal (OnFail new_CancellationError) o1))
      by (by rewrite lookup_modify, Ho1).
    exists o1. split; [done|]. split; [by apply Hpending|].
    split; [|split; [|split]].
    + rewrite Hwalk. unfold send_reject. rewrite Hr, Hmethod.
      unfold reject_method. rewrite Hr1. simpl _onFail. by rewrite Hrun.
    + exact Hsealed.
    + intros G.
      assert (G1 : inert_queues r (modify r mark_rejected s))
        by by apply inert_queues_mark.
      pose proof (forEach_untouched r (invoke depth) (invoke_untouched r depth)
                    (_onFail o) new_CancellationError
                    (modify r mark_rejected s)
                    (proj2 (proj2 G r o Hr)) G1) as Hun.
      rewrite Hrun in Hun. destruct Hun as [_ Hun].
      destruct (Hun _ Hr1) as (o' & Ho' & Hst).
      assert (o' = o1) as -> by congruence.
      unfold status in Hst. simpl in Hst. by injection Hst as -> -> _ _ _ _.
    + intros depth' f this x. apply invoke_keeps; [by repeat split|].
      by eexists.
Qed.

Lemma cancel_rejects_the_root_witness :
  parents_older (heap recovering_start)
  /\ root_of (heap recovering_start) 1 0
  /\ inert_queues 0 recovering_start
  /\ exists s1 o1,
       cancel (invoke 3) 1 recovering_start
       = Returned (VPromise 1)
           (modify 0 (seal (OnFail new_CancellationError)) s1)
       /\ heap (modify 0 (seal (OnFail new_CancellationError)) s1) !! 0
          = Some (seal (OnFail new_CancellationError) o1)
       /\ pending o1 = false /\ rejected o1 = true /\ resolved o1 = false
       /\ keeps_status 0 (false, true, false, OnFail new_CancellationError,
                          Noop, Noop)
            (invoke 3 (Resolve 0) ThisUndefined (VNum 1)
               (modify 0 (seal (OnFail new_CancellationError)) s1)).
Proof.
  assert (W : parents_older (heap recovering_start)).
  { intros [|[|p]] o q; simpl; intros [= <-]; simpl; intros [=]. lia. }
  assert (R : root_of (heap recovering_start) 1 0).
  { eapply root_above; [reflexivity|reflexivity|].
    eapply root_here; reflexivity. }
  assert (G : inert_queues 0 recovering_start).
  { split; [simpl; lia|].
    intros [|[|p]] o; simpl; intros [= <-]; simpl;
      repeat constructor; simpl; lia. }
  split; [exact W|]. split; [exact R|]. split; [exact G|].
  destruct (cancel_rejects_the_root 3 recovering_start 1 0 _ W R eq_refl)
    as (_ & _ & _ & H).
  destruct (H eq_refl eq_refl VUndefined _ eq_refl)
    as (o1 & _ & H2 & H3 & H4 & H5 & H6).
  eexists. exists o1. split; [exact H3|]. split; [exact H4|].
  split; [exact H2|]. destruct (H5 G) as [H7 H8].
  split; [exact H7|]. split; [exact H8|].
  pose proof (H6 3 (Resolve 0) ThisUndefined (VNum 1)) as H9.
  unfold status in H9. simpl in H9. rewrite H2, H7, H8 in H9. exact H9.
Defined.

(** C6, as stated, fails twice.  For a child with an [onFail] callback:
    [c = d.promise.then(null, () => 'recovered'); c.cancel()] leaves [c]
    resolved with ['recovered'], although its root was pending.  And for a
    root that is marked resolved while its callbacks run: with
    [d.promise.then(() => { d.promise.cancel() })] queued, the callback
    that [d.resolve(1)] runs finds the root resolved, and its [cancel()] is
    not ignored: it marks the root rejected and rejects the child with the
    Cancellation error; in the end the root is marked rejected and hands
    [1] to every later callback as a success. *)
Lemma cancel_does_not_decide_the_final_state :
  (exists s o root,
     cancel (invoke 3) 1 recovering_start = Returned (VPromise 1) s
     /\ heap recovering_start !! 0 = Some root /\ pending root = true
     /\ heap s !! 1 = Some o
     /\ resolved o = true /\ rejected o = false
     /\ _process o = OnSuccess (VStr "recovered"))
  /\ (exists root s o,
        heap (modify 0 mark_resolved cancelling_start) !! 0 = Some root
        /\ resolved root = true /\ pending root = false
        /\ cancel (invoke 3) 0 (modify 0 mark_resolved cancelling_start)
           = Returned (VPromise 0) s
        /\ heap s !! 0 = Some o
        /\ resolved o = false /\ rejected o = true)
  /\ (exists s o child,
        invoke 6 (Resolve 0) ThisUndefined (VNum 1) cancelling_start
        = Returned (VPromise 0) s
        /\ heap s !! 0 = Some o
        /\ resolved o = false /\ rejected o = true
        /\ _process o = OnSuccess (VNum 1)
        /\ heap s !! 1 = Some child
        /\ rejected child = true
        /\ _process child = OnFail new_CancellationError).
Proof.
  split; [|split].
  - do 3 eexists. split; [vm_compute; reflexivity|].
    repeat split; reflexivity.
  - do 3 eexists. split; [reflexivity|]. split; [reflexivity|].
    split; [reflexivity|]. split; [vm_compute; reflexivity|].
    repeat split; reflexivity.
  - do 3 eexists. split; [vm_compute; reflexivity|].
    repeat split; reflexivity.
Qed.

End DeferredFacts.

(* ===================================================================== *)
(** * Properties of the worker runtime                                    *)
(* ===================================================================== *)

Module RuntimeFacts.
Import JS Runtime.

(** ** [convertError] *)

Lemma fold_defineProperty (error : value) (names : list string) own inh :
  fold_left (fun product name => defineProperty product name (get error name) true)
    names (VObj own inh)
  = VObj (own ++ map (fun name => (name, (get error name, true))) names) inh.
Proof.
  revert own. induction names as [|name names IH]; intros own; simpl.
  - by rewrite app_nil_r.
  - rewrite IH. by rewrite <- app_assoc.
Qed.

Lemma convertError_names (error : value) (names : list string) :
  getOwnPropertyNames error = Some names ->
  convertError error
  = Some (VObj (map (fun name => (name, (get error name, true))) names) []).
Proof.
  intros H. unfold convertError. rewrite H. unfold empty_object.
  by rewrite fold_defineProperty.
Qed.

Lemma convertError_object (error record : value) :
  convertError error = Some record -> exists own, record = VObj own [].
Proof.
  unfold convertError. destruct (getOwnPropertyNames error) as [names|]; [|done].
  intros [= <-]. unfold empty_object. rewrite fold_defineProperty. eauto.
Qed.

Lemma enumerable_fields_converted (error : value) (own : list (string * (value * bool))) :
  enumerable_fields
    (VObj (map (fun name => (name, (get error name, true))) (map fst own)) [])
  = map (fun entry => (fst entry, get error (fst entry))) own.
Proof.
  unfold enumerable_fields; simpl.
  induction own as [|[k [x e]] own IH]; simpl; [done|]. by rewrite IH.
Qed.

Lemma assoc_map_get (error : value) own name x e :
  own_properties error = Some own ->
  assoc name own = Some (x, e) ->
  assoc name (map (fun entry => (fst entry, get error (fst entry))) own) = Some x.
Proof.
  intros Hown Hname.
  assert (Hget : get error name = x) by (unfold get; by rewrite Hown, Hname).
  clear Hown. induction own as [|[k [y b]] own IH]; simpl in *; [done|].
  destruct (String.eqb name k) eqn:E.
  - apply String.eqb_eq in E. subst k. by rewrite Hget.
  - by apply IH.
Qed.

(** ** [emit] *)

Lemma emit_cases (payload : value) (w : worker) :
  emit payload w
  = if truthy (currentRequestId w)
    then send (fst (event_of (currentRequestId w) payload))
              (snd (event_of (currentRequestId w) payload)) w
    else w.
Proof. unfold emit. destruct (truthy _); [|done]. by destruct payload. Qed.

Lemma emit_falsy (payload : value) (w : worker) :
  truthy (currentRequestId w) = false -> emit payload w = w.
Proof. intros H. by rewrite emit_cases, H. Qed.

Lemma emit_truthy (payload : value) (w : worker) :
  truthy (currentRequestId w) = true ->
  emit payload w
  = send (fst (event_of (currentRequestId w) payload))
         (snd (event_of (currentRequestId w) payload)) w.
Proof. intros H. by rewrite emit_cases, H. Qed.

Lemma emit_all_falsy (payloads : list value) (w : worker) :
  truthy (currentRequestId w) = false -> emit_all payloads w = w.
Proof.
  intros H. induction payloads as [|p ps IH]; simpl; [done|].
  by rewrite emit_falsy.
Qed.

(** [emit] only sends events, and touches nothing else. *)
Lemma emit_all_sent (payloads : list value) (w : worker) :
  exists new : list sending,
    emit_all payloads w
    = {| workerMethods := workerMethods w;
         terminationHandler := terminationHandler w;
         currentRequestId := currentRequestId w;
         sent := sent w ++ new; exits := exits w; awaiting := awaiting w |}
    /\ Forall is_event new.
Proof.
  revert w. induction payloads as [|p ps IH]; intros w; simpl.
  - exists []. split; [|constructor]. rewrite app_nil_r. by destruct w.
  - destruct (IH (emit p w)) as (new & -> & Hnew).
    rewrite emit_cases. destruct (truthy (currentRequestId w)).
    + exists (event_of (currentRequestId w) p :: new). split.
      * simpl. rewrite <- app_assoc. by destruct (event_of _ _).
      * constructor; [|done]. by destruct p.
    + by exists new.
Qed.

Lemma is_event_never_both (new : list sending) :
  Forall is_event new -> Forall never_both new.
Proof.
  intros H. eapply Forall_impl; [exact H|].
  intros [m t]. unfold is_event, never_both; simpl. by destruct m.
Qed.

Lemma adds_send_result (id result : value) (w0 w : worker) (new : list sending) :
  sent w = sent w0 ++ new -> Forall never_both new ->
  adds never_both w0 (Done (set_currentRequestId VNull (send_result id result w))).
Proof.
  intros Hw Hnew. destruct result; simpl;
    (eexists (new ++ [_]); split;
       [simpl; rewrite Hw; by rewrite <- app_assoc
       |apply Forall_app; split; [done|constructor; [by left|constructor]]]).
Qed.

Lemma adds_send_error (id err : value) (w0 w : worker) (new : list sending) :
  sent w = sent w0 ++ new -> Forall never_both new ->
  adds never_both w0 (send_error id err w).
Proof.
  intros Hw Hnew. unfold send_error.
  destruct (convertError err) as [record|] eqn:E.
  - destruct (convertError_object _ _ E) as [own ->].
    eexists (new ++ [_]); split.
    + simpl. rewrite Hw. by rewrite <- app_assoc.
    + apply Forall_app; split; [done|].
      constructor; [|constructor]. right. eauto.
  - exists new. by split.
Qed.

Lemma emit_all_currentRequestId (payloads : list value) (w : worker) :
  currentRequestId (emit_all payloads w) = currentRequestId w.
Proof. by destruct (emit_all_sent payloads w) as (new & -> & _). Qed.

(** ** The handlers, for any host *)

Section Host.

Variable evaluate : value -> value -> execution.
Variable inherited : string -> option func.

Lemma serve_adds (request : WorkerRequest) (w : worker) :
  adds never_both w (serve evaluate inherited request w).
Proof.
  unfold serve. destruct (lookup_method inherited w (method request)) as [f|].
  - set (w1 := set_currentRequestId (id request) w).
    destruct (emit_all_sent (emits (call_method evaluate w1 f (params request))) w1)
      as (new & Hw2 & Hnew).
    apply is_event_never_both in Hnew.
    destruct (completion_of _) as [result|err].
    + destruct (isPromise result).
      * exists new. split; [|done]. simpl. by rewrite Hw2.
      * eapply adds_send_result; [|done]. by rewrite Hw2.
    + eapply adds_send_error; [|done]. by rewrite Hw2.
  - eapply (adds_send_error _ _ w w []); [by rewrite app_nil_r|constructor].
Qed.

Lemma cleanupAndExit_adds (code : Z) (w : worker) :
  adds never_both w (cleanupAndExit code w).
Proof.
  unfold cleanupAndExit. destruct (terminationHandler w) as [h|].
  - destruct (emit_all_sent (emits (h code)) w) as (new & Hw1 & Hnew).
    apply is_event_never_both in Hnew.
    destruct (completion_of (h code)) as [result|err].
    + destruct (isPromise result); exists new; (split; [|done]);
        simpl; by rewrite Hw1.
    + exists new. split; [|done]. simpl. by rewrite Hw1.
  - exists []. split; [by rewrite app_nil_r|constructor].
Qed.

Lemma settle_adds (k : nat) (how : settlement) (w : worker) :
  adds never_both w (settle k how w).
Proof.
  unfold settle. destruct (awaiting w !! k) as [[p c]|].
  - set (w1 := set_awaiting (delete k (awaiting w)) w).
    destruct c as [id|code].
    + destruct how as [result|err].
      * eapply (adds_send_result _ _ w w1 []); [by rewrite app_nil_r|constructor].
      * pose proof (adds_send_error id err w w1 []) as H.
        destruct (send_error id err w1) as [w2|e w2]; simpl in *;
          apply H; (by rewrite ?app_nil_r) || constructor.
    + destruct how; exists []; (split; [by rewrite app_nil_r|constructor]).
  - exists []. split; [by rewrite app_nil_r|constructor].
Qed.

Lemma serve_exits (request : WorkerRequest) (w : worker) :
  exits (state_of (serve evaluate inherited request w)) = exits w.
Proof.
  unfold serve. destruct (lookup_method inherited w (method request)) as [f|].
  - set (w1 := set_currentRequestId (id request) w).
    destruct (emit_all_sent (emits (call_method evaluate w1 f (params request))) w1)
      as (new & -> & _).
    destruct (completion_of _) as [result|err].
    + destruct (isPromise result); [done|]. by destruct result.
    + unfold send_error. by destruct (convertError err).
  - unfold send_error. by destruct (convertError _).
Qed.

Lemma settle_exit (w : worker) (k : nat) (p : value) (code : Z)
    (how : settlement) :
  awaiting w !! k = Some (p, Exit code) ->
  settle k how w = Done (exit code (set_awaiting (delete k (awaiting w)) w)).
Proof. intros H. unfold settle. rewrite H. by destruct how. Qed.

(** The reply to a name under which nothing is found: the serialized
    [Error] names the method, and only [sent] changes. *)
Lemma unknown_method_reply (w : worker) (request : WorkerRequest) :
  lookup_method inherited w (method request) = None ->
  exists record,
    convertError (new_Error ("Unknown method " +:+ dquote +:+ method request
                               +:+ dquote)) = Some record
    /\ assoc "message" (enumerable_fields record)
       = Some (VStr ("Unknown method " +:+ dquote +:+ method request +:+ dquote))
    /\ on_message evaluate inherited (Request request) w
       = Done (send (Response (id request) VNull record) None w).
Proof.
  intros H. eexists. split; [reflexivity|]. split; [reflexivity|].
  simpl. unfold serve. by rewrite H.
Qed.

(** The two ways of completing a request that do reset
    [currentRequestId]. *)
Lemma plain_result_resets_currentRequestId
    (w : worker) (request : WorkerRequest) (f : func) (result : value) :
  lookup_method inherited w (method request) = Some f ->
  completion_of (call_method evaluate (set_currentRequestId (id request) w)
                   f (params request)) = Returns result ->
  isPromise result = false ->
  currentRequestId (state_of (serve evaluate inherited request w)) = VNull.
Proof. intros Hf Hrun Hp. unfold serve. by rewrite Hf, Hrun, Hp. Qed.

Lemma rejection_resets_currentRequestId
    (w : worker) (k : nat) (p i err record : value) :
  awaiting w !! k = Some (p, Reply i) ->
  convertError err = Some record ->
  settle k (Rejected err) w
  = Done (set_currentRequestId VNull
            (send (Response i VNull record) None
               (set_awaiting (delete k (awaiting w)) w))).
Proof.
  intros Hk Herr. unfold settle. rewrite Hk. unfold send_error.
  by rewrite Herr.
Qed.

(** ** The specified properties of the worker runtime *)

(** C2, as amended.  Whatever happens to the worker, every response it
    sends has [error] null, or has [result] null and a record as [error]:
    the two are never both non-null.  On success, which is a method that
    returns a value that is not a promise or a returned promise that is
    fulfilled, the one response carries the value as it is (the message of
    a [Transfer]) as [result], with [error] null; [result] is null when
    that value is.  On failure, which is a method that throws, a returned
    promise that is rejected or a method that is not found, with an error
    other than [null] and [undefined], the one response has [result] null
    and the record that [convertError] makes of the error, an object, as
    [error]. *)
Theorem response_has_null_error_or_null_result (e : event) (w : worker) :
  (exists new : list sending,
     sent (state_of (step evaluate inherited e w)) = sent w ++ new
     /\ Forall never_both new)
  /\ (forall request f result,
        lookup_method inherited w (method request) = Some f ->
        completion_of (call_method evaluate
                         (set_currentRequestId (id request) w) f
                         (params request)) = Returns result ->
        isPromise result = false ->
        exists events : list sending,
          Forall is_event events
          /\ sent (state_of (serve evaluate inherited request w))
             = sent w ++ events ++ [response_to (id request) result])
  /\ (forall k p i result,
        awaiting w !! k = Some (p, Reply i) ->
        sent (state_of (settle k (Fulfilled result) w))
        = sent w ++ [response_to i result])
  /\ (forall request f err record,
        lookup_method inherited w (method request) = Some f ->
        completion_of (call_method evaluate
                         (set_currentRequestId (id request) w) f
                         (params request)) = Throws err ->
        convertError err = Some record ->
        exists events : list sending,
          Forall is_event events
          /\ sent (state_of (serve evaluate inherited request w))
             = sent w ++ events ++ [(Response (id request) VNull record, None)])
  /\ (forall k p i err record,
        awaiting w !! k = Some (p, Reply i) ->
        convertError err = Some record ->
        sent (state_of (settle k (Rejected err) w))
        = sent w ++ [(Response i VNull record, None)])
  /\ (forall request,
        lookup_method inherited w (method request) = None ->
        exists record,
          convertError (new_Error ("Unknown method " +:+ dquote
                                     +:+ method request +:+ dquote))
          = Some record
          /\ sent (state_of (serve evaluate inherited request w))
             = sent w ++ [(Response (id request) VNull record, None)])
  /\ (forall err record,
        convertError err = Some record ->
        record <> VNull /\ exists own, record = VObj own []).
Proof.
  split; [|split; [|split; [|split; [|split; [|split]]]]].
  - destruct e as [m|k how|payload|methods options]; simpl.
    + destruct m as [s|request]; simpl.
      * destruct (String.eqb s TERMINATE_METHOD_ID).
        -- apply cleanupAndExit_adds.
        -- apply serve_adds.
      * apply serve_adds.
    + apply settle_adds.
    + destruct (emit_all_sent [payload] w) as (new & Hw & Hnew).
      exists new. simpl in Hw. rewrite Hw. split; [done|].
      by apply is_event_never_both.
    + exists [(Ready, None)]. split; [|by repeat constructor].
      unfold register. simpl.
      destruct options; destruct methods; done.
  - intros request f result Hf Hrun Hp. unfold serve. rewrite Hf, Hrun, Hp.
    destruct (emit_all_sent
                (emits (call_method evaluate
                          (set_currentRequestId (id request) w) f
                          (params request)))
                (set_currentRequestId (id request) w))
      as (events & -> & Hevents).
    exists events. split; [done|].
    destruct result; simpl; by rewrite <- app_assoc.
  - intros k p i result Hk. unfold settle. rewrite Hk.
    by destruct result.
  - intros request f err record Hf Hrun Herr. unfold serve.
    rewrite Hf, Hrun. unfold send_error. rewrite Herr.
    destruct (emit_all_sent
                (emits (call_method evaluate
                          (set_currentRequestId (id request) w) f
                          (params request)))
                (set_currentRequestId (id request) w))
      as (events & -> & Hevents).
    exists events. split; [done|]. simpl. by rewrite <- app_assoc.
  - intros k p i err record Hk Herr. unfold settle. rewrite Hk.
    unfold send_error. by rewrite Herr.
  - intros request Hf. eexists. split; [reflexivity|].
    unfold serve. by rewrite Hf.
  - intros err record Herr. destruct (convertError_object _ _ Herr) as [own ->].
    split; [done|eauto].
Qed.

(** C3.  When the method throws, the [catch] block of the message listener
    sends the one error response and leaves [currentRequestId] at the id of
    the request, where the two other ways of completing a request assign
    [null]; an [emit] that comes after the response is still sent as an
    event of that request.  The specification says [currentRequestId] is reset
    to null on this path too. *)
Theorem synchronous_throw_keeps_currentRequestId
    (w : worker) (request : WorkerRequest) (f : func)
    (err record payload : value) :
  lookup_method inherited w (method request) = Some f ->
  completion_of (call_method evaluate (set_currentRequestId (id request) w)
                   f (params request)) = Throws err ->
  convertError err = Some record ->
  truthy (id request) = true ->
  let w2 := emit_all
              (emits (call_method evaluate
                        (set_currentRequestId (id request) w) f
                        (params request)))
              (set_currentRequestId (id request) w) in
  let w' := send (Response (id request) VNull record) None w2 in
  serve evaluate inherited request w = Done w'
  /\ currentRequestId w' = id request
  /\ currentRequestId w' <> VNull
  /\ sent (emit payload w') = sent w' ++ [event_of (id request) payload].
Proof.
  intros Hf Hrun Herr Hid w2 w'.
  assert (Hcur : currentRequestId w' = id request)
    by (unfold w', w2; simpl; by rewrite emit_all_currentRequestId).
  split; [|split; [|split]].
  - unfold serve. rewrite Hf, Hrun. unfold send_error. by rewrite Herr.
  - exact Hcur.
  - rewrite Hcur. intros E. by rewrite E in Hid.
  - rewrite emit_truthy by (by rewrite Hcur). rewrite Hcur.
    by destruct (event_of (id request) payload).
Qed.

(** C7.  The listener reads [workerMethods[request.method]], and the
    object [workerMethods] inherits from [Object.prototype]: a request for
    [toString], which nobody registered, finds the built-in, calls it, and
    gets its result back as a success.  The specification says the reply is
    the [Unknown method] error. *)
Theorem inherited_name_is_served
    (w : worker) (i : value) (args : list value) :
  assoc "toString" (workerMethods w) = None ->
  inherited "toString" = Some Object_prototype_toString ->
  on_message evaluate inherited
    (Request {| id := i; method := "toString"; params := args |}) w
  = Done (set_currentRequestId VNull
            (send (Response i (VStr "[object Function]") VNull) None
               (set_currentRequestId i w))).
Proof.
  intros Hown Hinh. simpl. unfold serve, lookup_method. simpl.
  by rewrite Hown, Hinh.
Qed.

(** C8.  On the message ["__workerpool-terminate__"] the worker calls
    [worker.exit(0)] at once when no termination handler is registered or
    when the handler returns something that is not a promise; when the
    handler returns a promise, the worker does not exit yet, and exits with
    code 0 when the promise settles, whether it is fulfilled or rejected,
    and whatever the worker did in between.  No other message makes the
    listener call [worker.exit]. *)
Theorem terminate_message_exits_with_code_0 (w : worker) :
  (terminationHandler w = None ->
   on_message evaluate inherited (Text TERMINATE_METHOD_ID) w
   = Done (exit 0 w))
  /\ (forall handler result,
        terminationHandler w = Some handler ->
        completion_of (handler 0%Z) = Returns result ->
        isPromise result = false ->
        on_message evaluate inherited (Text TERMINATE_METHOD_ID) w
        = Done (exit 0 (emit_all (emits (handler 0%Z)) w)))
  /\ (forall handler result,
        terminationHandler w = Some handler ->
        completion_of (handler 0%Z) = Returns result ->
        isPromise result = true ->
        exists w1,
          on_message evaluate inherited (Text TERMINATE_METHOD_ID) w = Done w1
          /\ exits w1 = exits w
          /\ awaiting w1 = awaiting w ++ [(result, Exit 0)]
          /\ forall how,
               exists w2,
                 settle (length (awaiting w)) how w1 = Done w2
                 /\ exits w2 = exits w ++ [0%Z])
  /\ (forall w' k p how,
        awaiting w' !! k = Some (p, Exit 0) ->
        exits (state_of (settle k how w')) = exits w' ++ [0%Z])
  /\ (forall m,
        m <> Text TERMINATE_METHOD_ID ->
        exits (state_of (on_message evaluate inherited m w)) = exits w).
Proof.
  split; [|split; [|split; [|split]]]; cycle 3.
  { intros w' k p how Hk. by rewrite (settle_exit w' k p 0 how Hk). }
  { intros [s|request] Hm; simpl; [|apply serve_exits].
    destruct (String.eqb s TERMINATE_METHOD_ID) eqn:E; [|apply serve_exits].
    apply String.eqb_eq in E. by subst s. }
  - intros H. simpl. unfold cleanupAndExit. by rewrite H.
  - intros handler result Hh Hrun Hp. simpl. unfold cleanupAndExit.
    by rewrite Hh, Hrun, Hp.
  - intros handler result Hh Hrun Hp. simpl. unfold cleanupAndExit.
    rewrite Hh, Hrun, Hp.
    destruct (emit_all_sent (emits (handler 0%Z)) w) as (new & Hw1 & _).
    eexists. split; [reflexivity|]. rewrite Hw1. simpl.
    split; [done|]. split; [done|]. intros how.
    eexists. split.
    + eapply settle_exit. simpl. by apply list_lookup_middle.
    + done.
Qed.

(** C10.  [emit(payload)] sends the event [{id: currentRequestId, isEvent:
    true, payload}] when [currentRequestId] is truthy and does nothing
    otherwise, so it sends only then.  While a request with id 0 is served,
    [currentRequestId] is 0: every [emit] of the method is dropped, as it
    is when [currentRequestId] is null, and serving the request adds no
    event to what the worker has sent. *)
Theorem emit_needs_truthy_currentRequestId
    (w : worker) (payload : value) (request : WorkerRequest) (f : func) :
  lookup_method inherited w (method request) = Some f ->
  id request = VNum 0 ->
  (truthy (currentRequestId w) = true ->
     sent (emit payload w)
     = sent w ++ [event_of (currentRequestId w) payload])
  /\ (truthy (currentRequestId w) = false -> emit payload w = w)
  /\ (sent (emit payload w) <> sent w -> truthy (currentRequestId w) = true)
  /\ emit_all (emits (call_method evaluate
                        (set_currentRequestId (VNum 0) w) f (params request)))
       (set_currentRequestId (VNum 0) w)
     = set_currentRequestId (VNum 0) w
  /\ emit payload (set_currentRequestId (VNum 0) w)
     = set_currentRequestId (VNum 0) w
  /\ emit payload (set_currentRequestId VNull w)
     = set_currentRequestId VNull w
  /\ exists new : list sending,
       sent (state_of (serve evaluate inherited request w)) = sent w ++ new
       /\ Forall (fun item => ~ is_event item) new.
Proof.
  intros Hf Hid.
  split; [|split; [|split; [|split; [|split; [|split]]]]].
  - intros H. rewrite emit_truthy by done. simpl.
    by destruct (event_of _ _).
  - apply emit_falsy.
  - intros H. destruct (truthy (currentRequestId w)) eqn:E; [done|].
    by rewrite emit_falsy in H.
  - by apply emit_all_falsy.
  - by apply emit_falsy.
  - by apply emit_falsy.
  - unfold serve. rewrite Hf, Hid.
    rewrite emit_all_falsy by done.
    destruct (completion_of _) as [result|err].
    + destruct (isPromise result).
      * exists []. split; [by rewrite app_nil_r|constructor].
      * destruct result; simpl; eexists [_]; (split; [done|]);
          repeat constructor; by intros [].
    + unfold send_error. destruct (convertError err).
      * eexists [_]; split; [done|]. repeat constructor. by intros [].
      * exists []. split; [by rewrite app_nil_r|constructor].
Qed.

End Host.

(** C4, as amended.  For an error value other than [null] and [undefined],
    [convertError] produces a record with one enumerable field for each own
    property of the error, in order, holding the error's value for it: own
    properties, enumerable or not, are carried over, and nothing else
    is. *)
Theorem convertError_keeps_own_properties (error : value) own :
  own_properties error = Some own ->
  exists record,
    convertError error = Some record
    /\ enumerable_fields record
       = map (fun entry => (fst entry, get error (fst entry))) own
    /\ forall name x e,
         assoc name own = Some (x, e) ->
         assoc name (enumerable_fields record) = Some x
         /\ get error name = x.
Proof.
  intros Hown.
  assert (Hnames : getOwnPropertyNames error = Some (map fst own))
    by (unfold getOwnPropertyNames; by rewrite Hown).
  eexists. split; [by apply convertError_names|].
  pose proof (enumerable_fields_converted error own) as Hfields.
  split; [exact Hfields|].
  intros name x e Hname. rewrite Hfields. split.
  - by eapply assoc_map_get.
  - unfold get. by rewrite Hown, Hname.
Qed.

Lemma convertError_keeps_own_properties_witness :
  own_properties (new_Error "boom")
  = Some [("stack", (VStr "Error: boom", false)); ("message", (VStr "boom", false))]
  /\ exists record,
    convertError (new_Error "boom") = Some record
    /\ enumerable_fields record
       = map (fun entry => (fst entry, get (new_Error "boom") (fst entry)))
           [("stack", (VStr "Error: boom", false)); ("message", (VStr "boom", false))]
    /\ forall name x e,
         assoc name [("stack", (VStr "Error: boom", false)); ("message", (VStr "boom", false))] = Some (x, e) ->
         assoc name (enumerable_fields record) = Some x
         /\ get (new_Error "boom") name = x.
Proof.
  split; [reflexivity|].
  apply (convertError_keeps_own_properties (new_Error "boom")). reflexivity.
Defined.

(** C4, as stated, fails for the [name] of an [Error]: it is a property of
    the prototype, not of the error, and the record does not have it. *)
Lemma inherited_name_is_lost :
  exists record,
    convertError (new_Error "boom") = Some record
    /\ get (new_Error "boom") "name" = VStr "Error"
    /\ assoc "name" (enumerable_fields record) = None.
Proof. eexists. split; [reflexivity|]. split; reflexivity. Qed.

(** C2, as stated, fails for a method that returns [null]: the response has
    [result] and [error] both null. *)
Lemma null_result_leaves_both_null :
  sent (state_of (on_message sample_evaluate sample_inherited
                    (Request (request_of 1 "nothing")) sample_worker))
  = [(Ready, None); (Response (VNum 1) VNull VNull, None)]
  /\ exactly_one_non_null (Response (VNum 1) VNull VNull) = false.
Proof. split; reflexivity. Qed.

(** ** The same, at the sample worker *)

Lemma response_has_null_error_or_null_result_witness :
  (exists events : list sending,
     Forall is_event events
     /\ sent (state_of (serve sample_evaluate sample_inherited
                          (request_of 1 "nothing") sample_worker))
        = sent sample_worker ++ events
          ++ [(Response (VNum 1) VNull VNull, None)])
  /\ (exists events : list sending,
        Forall is_event events
        /\ sent (state_of (serve sample_evaluate sample_inherited
                             (request_of 2 "fail") sample_worker))
           = sent sample_worker ++ events
             ++ [(Response (VNum 2) VNull
                    (VObj [("stack", (VStr "Error: boom", true));
                           ("message", (VStr "boom", true))] []), None)]).
Proof.
  destruct (response_has_null_error_or_null_result sample_evaluate
              sample_inherited (Emits VNull) sample_worker)
    as (_ & H1 & _ & H2 & _).
  split.
  - exact (H1 (request_of 1 "nothing") (Fn (fun _ => returning VNull)) VNull
              eq_refl eq_refl eq_refl).
  - exact (H2 (request_of 2 "fail")
              (Fn (fun _ => throwing (new_Error "boom"))) (new_Error "boom") _
              eq_refl eq_refl eq_refl).
Defined.

Lemma synchronous_throw_keeps_currentRequestId_witness :
  lookup_method sample_inherited sample_worker "fail"
  = Some (Fn (fun _ => throwing (new_Error "boom")))
  /\ currentRequestId
       (state_of (serve sample_evaluate sample_inherited (request_of 7 "fail")
                    sample_worker))
     = VNum 7
  /\ sent (emit (VStr "late")
             (state_of (serve sample_evaluate sample_inherited
                          (request_of 7 "fail") sample_worker)))
     = sent (state_of (serve sample_evaluate sample_inherited
                         (request_of 7 "fail") sample_worker))
       ++ [(Event (VNum 7) (VStr "late"), None)].
Proof.
  split; [reflexivity|].
  destruct (synchronous_throw_keeps_currentRequestId sample_evaluate
              sample_inherited sample_worker (request_of 7 "fail")
              (Fn (fun _ => throwing (new_Error "boom")))
              (new_Error "boom")
              (VObj [("stack", (VStr "Error: boom", true));
                     ("message", (VStr "boom", true))] [])
              (VStr "late") eq_refl eq_refl eq_refl eq_refl)
    as (H1 & H2 & _ & H4).
  rewrite H1. simpl state_of. split; [exact H2|exact H4].
Defined.

Lemma inherited_name_is_served_witness :
  assoc "toString" (workerMethods sample_worker) = None
  /\ sent (state_of (on_message sample_evaluate sample_inherited
                       (Request (request_of 1 "toString")) sample_worker))
     = [(Ready, None);
        (Response (VNum 1) (VStr "[object Function]") VNull, None)].
Proof.
  split; [reflexivity|].
  unfold request_of.
  rewrite (inherited_name_is_served sample_evaluate sample_inherited
             sample_worker (VNum 1) [] eq_refl eq_refl).
  reflexivity.
Defined.

Lemma terminate_message_exits_with_code_0_witness :
  exits (state_of (on_message sample_evaluate sample_inherited
                     (Text TERMINATE_METHOD_ID) sample_worker)) = [0%Z]
  /\ exits (state_of (on_message sample_evaluate sample_inherited
                        (Text TERMINATE_METHOD_ID)
                        (cleanup_worker VUndefined))) = [0%Z]
  /\ exists w1,
       on_message sample_evaluate sample_inherited (Text TERMINATE_METHOD_ID)
         (cleanup_worker (VPromise 0)) = Done w1
       /\ exits w1 = []
       /\ (exists w2, settle 0 (Fulfilled VUndefined) w1 = Done w2
                      /\ exits w2 = [0%Z])
       /\ (exists w2, settle 0 (Rejected VUndefined) w1 = Done w2
                      /\ exits w2 = [0%Z]).
Proof.
  split; [|split].
  - destruct (terminate_message_exits_with_code_0 sample_evaluate
                sample_inherited sample_worker) as (H & _ & _ & _ & _).
    by rewrite (H eq_refl).
  - destruct (terminate_message_exits_with_code_0 sample_evaluate
                sample_inherited (cleanup_worker VUndefined)) as (_ & H & _ & _ & _).
    by rewrite (H _ VUndefined eq_refl eq_refl eq_refl).
  - destruct (terminate_message_exits_with_code_0 sample_evaluate
                sample_inherited (cleanup_worker (VPromise 0))) as (_ & _ & H & _ & _).
    destruct (H _ (VPromise 0) eq_refl eq_refl eq_refl)
      as (w1 & H1 & H2 & _ & H4).
    exists w1. split; [exact H1|]. split; [exact H2|].
    split; [exact (H4 (Fulfilled VUndefined))|exact (H4 (Rejected VUndefined))].
Defined.

Lemma emit_needs_truthy_currentRequestId_witness :
  lookup_method sample_inherited sample_worker "progress"
  = Some (Fn (fun _ => {| emits := [VStr "progress: 50"];
                          completion_of := Returns (VStr "done") |}))
  /\ emit_all [VStr "progress: 50"]
       (set_currentRequestId (VNum 0) sample_worker)
     = set_currentRequestId (VNum 0) sample_worker
  /\ exists new : list sending,
       sent (state_of (serve sample_evaluate sample_inherited
                         (request_of 0 "progress") sample_worker))
       = sent sample_worker ++ new
       /\ Forall (fun item => ~ is_event item) new.
Proof.
  split; [reflexivity|].
  destruct (emit_needs_truthy_currentRequestId sample_evaluate sample_inherited
              sample_worker (VStr "x") (request_of 0 "progress") _
              eq_refl eq_refl)
    as (_ & _ & _ & H4 & _ & _ & H7).
  split; [exact H4|exact H7].
Defined.

End RuntimeFacts.

(* ===================================================================== *)
(** * What counts as a promise, in both files                             *)
(* ===================================================================== *)

Module SharedFacts.
Import JS Deferred Runtime.





End SharedFacts.

(* ===================================================================== *)
(** * Properties of the debug port allocator                              *)
(* ===================================================================== *)

Module PortsFacts.
Import Ports.

(** The loop never looks below where it stands. *)
Lemma scan_delete_below turns (m : gmap Z bool) k s :
  (k < s)%Z -> scan turns (delete k m) s = scan turns m s.
Proof.
  revert s. induction turns as [|turns IH]; intros s Hk; simpl; [done|].
  rewrite lookup_delete_ne by lia.
  destruct (decide (m !! s = Some true)); [|done]. apply IH. lia.
Qed.

(** With more turns than entries the loop ends, at the first port from
    [s] on that is not held. *)
Lemma scan_finds_first_free turns (m : gmap Z bool) s :
  size m < turns ->
  exists port,
    scan turns m s = Some port
    /\ (s <= port)%Z
    /\ m !! port <> Some true
    /\ forall q, (s <= q < port)%Z -> m !! q = Some true.
Proof.
  revert m s. induction turns as [|turns IH]; intros m s Hsize; [lia|].
  simpl. destruct (decide (m !! s = Some true)) as [Hs|Hs].
  - assert (Hdel : size (delete s m) < turns).
    { rewrite map_size_delete, Hs. simpl.
      destruct (size m) eqn:E; [|lia].
      apply map_size_empty_inv in E. subst m. by rewrite lookup_empty in Hs. }
    destruct (IH (delete s m) (s + 1)%Z Hdel) as (port & Hscan & Hle & Hfree & Hbelow).
    rewrite scan_delete_below in Hscan by lia.
    exists port. split; [done|]. split; [lia|]. split.
    + by rewrite lookup_delete_ne in Hfree by lia.
    + intros q Hq. destruct (decide (q = s)) as [->|Hne]; [done|].
      rewrite <- (lookup_delete_ne m s q) by lia. apply Hbelow. lia.
  - exists s. split; [done|]. split; [lia|]. split; [done|]. intros q Hq. lia.
Qed.


(** What a call does, in terms of the first port that is not held. *)
Lemma first_free_port (a : DebugPortAllocator) (starting : Z) :
  exists port,
    (starting <= port)%Z
    /\ ~ held a port
    /\ (forall q, (starting <= q < port)%Z -> held a q)
    /\ nextAvailableStartingAt a starting
       = if (MAX_PORTS <=? port)%Z
         then LimitReached ("WorkerPool debug port limit reached: "
                              +:+ pretty port +:+ ">= " +:+ pretty MAX_PORTS)
         else Allocated port
                {| ports := <[port := true]> (ports a);
                   length := length a + 1 |}.
Proof.
  destruct (scan_finds_first_free (S (size (ports a))) (ports a) starting
              ltac:(lia)) as (port & Hscan & Hle & Hfree & Hbelow).
  exists port. split; [done|]. split; [done|]. split; [done|].
  unfold nextAvailableStartingAt. by rewrite Hscan.
Qed.

Lemma counted_free (a : DebugPortAllocator) (port : Z) :
  counted a -> ~ held a port -> ports a !! port = None.
Proof.
  intros [_ Htrue] Hfree.
  destruct (ports a !! port) as [v|] eqn:E; [|done].
  destruct Hfree. unfold held. rewrite E. f_equal. by eapply Htrue.
Qed.

Lemma counted_empty : counted empty.
Proof. split; [done|]. intros port v. simpl. by rewrite lookup_empty. Qed.

(** X1.  For an integer [starting] from [-2^53] to [2^53], on an allocator
    whose held ports are below [2^53], [nextAvailableStartingAt(starting)]
    returns or throws, for its loop ends.  The port it returns is the first
    one from [starting] on that is not held, and is below 65535; the call
    marks it as held and increments [length], and changes nothing else. *)
Theorem next_port_is_first_free (a : DebugPortAllocator) (starting : Z) :
  exact starting ->
  in_range a ->
  nextAvailableStartingAt a starting <> StillScanning
  /\ forall port a',
       nextAvailableStartingAt a starting = Allocated port a' ->
       (starting <= port < MAX_PORTS)%Z
       /\ ~ held a port
       /\ (forall q, (starting <= q < port)%Z -> held a q)
       /\ a' = {| ports := <[port := true]> (ports a);
                  length := length a + 1 |}
       /\ in_range a'.
Proof.
  intros _ Hrange.
  destruct (first_free_port a starting)
    as (port & Hle & Hfree & Hbelow & ->).
  destruct (Z.leb_spec MAX_PORTS port) as [Hmax|Hmax]; [done|].
  split; [done|]. intros port' a' [= <- <-].
  split; [lia|]. split; [done|]. split; [done|]. split; [done|].
  intros q. unfold held. simpl. destruct (decide (port = q)) as [<-|Hne].
  - intros _. unfold MAX_PORTS, EXACT_LIMIT in *. lia.
  - rewrite lookup_insert_ne by done. apply Hrange.
Qed.

(** X2.  For an integer [starting] from [-2^53] to [2^53], on an allocator
    whose held ports are below [2^53], the call throws exactly when every
    port from [starting] up to 65534 is held (so always when [starting] is
    65535 or more), and a port it returns lies between [starting] and
    65534. *)
Theorem limit_reached_when_range_is_full (a : DebugPortAllocator) (starting : Z) :
  exact starting ->
  in_range a ->
  ((exists message, nextAvailableStartingAt a starting = LimitReached message)
   <-> forall q, (starting <= q < MAX_PORTS)%Z -> held a q)
  /\ forall port a',
       nextAvailableStartingAt a starting = Allocated port a' ->
       (starting <= port < MAX_PORTS)%Z.
Proof.
  intros _ _.
  destruct (first_free_port a starting)
    as (port & Hle & Hfree & Hbelow & Hnext).
  rewrite Hnext. destruct (Z.leb_spec MAX_PORTS port) as [Hmax|Hmax].
  - split; [|done]. split; [|eauto]. intros _ q Hq. apply Hbelow. lia.
  - split.
    + split; [by intros [message ?]|]. intros Hfull.
      destruct Hfree. apply Hfull. lia.
    + intros port' a' [= <- <-]. lia.
Qed.

(** X3.  Releasing the port that a call has just returned gives back the
    allocator as it was before the call. *)
Theorem release_undoes_allocation
    (a a' : DebugPortAllocator) (starting port : Z) :
  counted a ->
  nextAvailableStartingAt a starting = Allocated port a' ->
  releasePort a' port = a.
Proof.
  intros [_ Htrue] Hnext.
  destruct (first_free_port a starting)
    as (p & _ & Hfree & _ & Hspec).
  rewrite Hnext in Hspec. destruct (MAX_PORTS <=? p)%Z; [done|].
  injection Hspec as -> ->.
  assert (Hnone : ports a !! p = None).
  { destruct (ports a !! p) as [v|] eqn:E; [|done].
    destruct Hfree. unfold held. rewrite E. f_equal. by eapply Htrue. }
  unfold releasePort. simpl. destruct a as [m n]. simpl in *.
  f_equal; [by apply delete_insert_id|lia].
Qed.

(** X4.  [length] is the number of held ports as long as only held ports
    are released: a new allocator has it, an allocation and the release of
    a held port keep it; releasing a port that is not held leaves [ports]
    as it is and still decrements [length], which is then one less than
    the number of held ports. *)
Theorem length_counts_held_ports (a : DebugPortAllocator) :
  counted a ->
  counted empty
  /\ (forall starting port a',
        nextAvailableStartingAt a starting = Allocated port a' -> counted a')
  /\ (forall port, held a port -> counted (releasePort a port))
  /\ (forall port,
        ~ held a port ->
        ports (releasePort a port) = ports a
        /\ length (releasePort a port)
           = (Z.of_nat (size (ports (releasePort a port))) - 1)%Z).
Proof.
  intros [Hlen Htrue]. split; [|split; [|split]].
  - split; [done|]. intros port v. simpl. by rewrite lookup_empty.
  - intros starting port a' Hnext.
    destruct (first_free_port a starting)
      as (p & _ & Hfree & _ & Hspec).
    rewrite Hnext in Hspec. destruct (MAX_PORTS <=? p)%Z; [done|].
    injection Hspec as -> ->.
    assert (Hnone : ports a !! p = None).
    { destruct (ports a !! p) as [v|] eqn:E; [|done].
      destruct Hfree. unfold held. rewrite E. f_equal. by eapply Htrue. }
    split; simpl.
    + rewrite map_size_insert_None by done. lia.
    + intros q v. destruct (decide (p = q)) as [->|Hne].
      * rewrite lookup_insert_eq. by intros [= <-].
      * rewrite lookup_insert_ne by done. apply Htrue.
  - intros port Hheld. split; simpl.
    + rewrite map_size_delete, Hheld. simpl.
      destruct (size (ports a)) eqn:E; [|lia].
      apply map_size_empty_inv in E. unfold held in Hheld.
      rewrite E in Hheld. by rewrite lookup_empty in Hheld.
    + intros q v Hq. apply (Htrue q).
      destruct (decide (port = q)) as [->|Hne].
      * by rewrite lookup_delete_eq in Hq.
      * by rewrite lookup_delete_ne in Hq.
  - intros port Hfree.
    assert (Hnone : ports a !! port = None).
    { destruct (ports a !! port) as [v|] eqn:E; [|done].
      destruct Hfree. unfold held. rewrite E. f_equal. by eapply Htrue. }
    simpl. rewrite delete_id by done. split; [done|lia].
Qed.

(** X5.  Two calls in a row never return the same port, wherever they
    start from: the port of the first is held when the second looks. *)
Theorem successive_ports_differ
    (a a1 a2 : DebugPortAllocator) (s1 s2 p1 p2 : Z) :
  nextAvailableStartingAt a s1 = Allocated p1 a1 ->
  nextAvailableStartingAt a1 s2 = Allocated p2 a2 ->
  p1 <> p2 /\ held a2 p1 /\ held a2 p2.
Proof.
  intros H1 H2.
  destruct (first_free_port a s1) as (q1 & _ & _ & _ & Hspec1).
  rewrite H1 in Hspec1. destruct (MAX_PORTS <=? q1)%Z; [done|].
  injection Hspec1 as -> ->.
  destruct (first_free_port
              {| ports := <[q1:=true]> (ports a); length := length a + 1 |} s2)
    as (q2 & _ & Hfree2 & _ & Hspec2).
  rewrite H2 in Hspec2. destruct (MAX_PORTS <=? q2)%Z; [done|].
  injection Hspec2 as -> ->.
  assert (Hne : q1 <> q2).
  { intros ->. apply Hfree2. unfold held. simpl. apply lookup_insert_eq. }
  split; [done|]. unfold held. simpl. split.
  - rewrite lookup_insert_ne by done. apply lookup_insert_eq.
  - apply lookup_insert_eq.
Qed.

(** X6.  A port that has been released is free again: asked for from that
    port on, the allocator returns it and is back in the state it had
    before the release. *)
Theorem released_port_is_reused (a : DebugPortAllocator) (port : Z) :
  held a port ->
  (port < MAX_PORTS)%Z ->
  nextAvailableStartingAt (releasePort a port) port = Allocated port a.
Proof.
  intros Hheld Hmax.
  destruct (first_free_port (releasePort a port) port)
    as (q & Hle & _ & Hbelow & Hspec).
  assert (q = port) as ->.
  { destruct (decide (q = port)) as [|Hne]; [done|].
    assert (Hport : held (releasePort a port) port) by (apply Hbelow; lia).
    unfold held in Hport. simpl in Hport. by rewrite lookup_delete_eq in Hport. }
  rewrite Hspec. destruct (Z.leb_spec MAX_PORTS port) as [?|_]; [lia|].
  f_equal. destruct a as [m n]. unfold releasePort, held in *. simpl in *.
  f_equal; [|lia]. rewrite insert_delete_eq. by apply insert_id.
Qed.

(** ** The same, from a new allocator *)

Lemma in_range_debugging : in_range debugging.
Proof.
  intros port. unfold held, debugging. simpl.
  destruct (decide (9229%Z = port)) as [<-|Hne].
  - intros _. unfold EXACT_LIMIT. lia.
  - rewrite lookup_insert_ne by done. by rewrite lookup_empty.
Qed.

Lemma exact_9229 : exact 9229.
Proof. unfold exact, EXACT_LIMIT. lia. Qed.

Lemma next_port_is_first_free_witness :
  exact 9229
  /\ in_range debugging
  /\ nextAvailableStartingAt debugging 9229 <> StillScanning
  /\ (9229 <= 9230 < MAX_PORTS)%Z
  /\ ~ held debugging 9230
  /\ forall q, (9229 <= q < 9230)%Z -> held debugging q.
Proof.
  destruct (next_port_is_first_free debugging 9229 exact_9229
              in_range_debugging) as [H1 H2].
  destruct (H2 9230%Z _ eq_refl) as (H3 & H4 & H5 & _).
  split; [exact exact_9229|]. split; [exact in_range_debugging|].
  split; [exact H1|]. split; [exact H3|]. split; [exact H4|exact H5].
Defined.

Lemma limit_reached_when_range_is_full_witness :
  (exists message,
     nextAvailableStartingAt debugging 65535 = LimitReached message)
  /\ forall q, (65535 <= q < MAX_PORTS)%Z -> held debugging q.
Proof.
  assert (H : exact 65535) by (unfold exact, EXACT_LIMIT; lia).
  destruct (limit_reached_when_range_is_full debugging 65535 H
              in_range_debugging) as [[H1 _] _].
  split; [eexists; reflexivity|].
  apply H1. eexists; reflexivity.
Defined.

Lemma release_undoes_allocation_witness :
  counted empty
  /\ releasePort {| ports := <[9229%Z := true]> ∅; length := 0 + 1 |} 9229
     = empty.
Proof.
  split; [exact counted_empty|].
  exact (release_undoes_allocation empty _ 9229 9229 counted_empty eq_refl).
Defined.

Lemma length_counts_held_ports_witness :
  counted empty /\ counted debugging.
Proof.
  split; [exact counted_empty|].
  exact (proj1 (proj2 (length_counts_held_ports empty counted_empty))
           9229%Z 9229%Z debugging eq_refl).
Defined.

Lemma successive_ports_differ_witness :
  nextAvailableStartingAt empty 9229 = Allocated 9229 debugging
  /\ (exists a2, nextAvailableStartingAt debugging 9229 = Allocated 9230 a2
                 /\ held a2 9229 /\ held a2 9230).
Proof.
  split; [reflexivity|]. eexists. split; [reflexivity|].
  exact (proj2 (successive_ports_differ empty debugging _ 9229 9229 9229 9230
                  eq_refl eq_refl)).
Defined.

Lemma released_port_is_reused_witness :
  nextAvailableStartingAt (releasePort debugging 9229) 9229
  = Allocated 9229 debugging.
Proof.
  apply (released_port_is_reused debugging 9229); [reflexivity|reflexivity].
Defined.

End PortsFacts.

(* ===================================================================== *)
(** * More properties of the worker runtime                               *)
(* ===================================================================== *)

Module RuntimeMoreFacts.
Import JS Runtime Accounting.

(** ** [register] and the registry *)







(** ** Counting *)

Lemma responses_app (l1 l2 : list sending) :
  responses (l1 ++ l2) = responses l1 + responses l2.
Proof.
  induction l1 as [|[m t] l1 IH]; simpl; [done|].
  destruct m; simpl; by rewrite IH.
Qed.

Lemma responses_events (l : list sending) :
  Forall is_event l -> responses l = 0.
Proof.
  induction 1 as [|[m t] l Hm _ IH]; simpl; [done|].
  unfold is_event in Hm. simpl in Hm. by destruct m.
Qed.

Lemma replies_app (l1 l2 : list (value * continuation)) :
  replies (l1 ++ l2) = replies l1 + replies l2.
Proof.
  induction l1 as [|[p [i|code]] l1 IH]; simpl; by rewrite ?IH.
Qed.


(** [emit], for a request whose id is truthy. *)
Lemma emit_all_truthy (payloads : list value) (w : worker) :
  truthy (currentRequestId w) = true ->
  emit_all payloads w
  = {| workerMethods := workerMethods w;
       terminationHandler := terminationHandler w;
       currentRequestId := currentRequestId w;
       sent := sent w ++ map (event_of (currentRequestId w)) payloads;
       exits := exits w; awaiting := awaiting w |}.
Proof.
  revert w. induction payloads as [|p ps IH]; intros w Hid; simpl.
  - rewrite app_nil_r. by destruct w.
  - rewrite RuntimeFacts.emit_truthy by done.
    rewrite IH by done. simpl. rewrite <- app_assoc. simpl.
    by destruct (event_of (currentRequestId w) p).
Qed.

Lemma convertError_nullish (err : value) :
  convertError err = None <-> nullish err = true.
Proof.
  unfold convertError, getOwnPropertyNames. by destruct err.
Qed.

Lemma assoc_map_self {A} (g : string -> A) (names : list string) (n : string) :
  n ∈ names -> assoc n (map (fun name => (name, g name)) names) = Some (g n).
Proof.
  induction names as [|k names IH]; simpl.
  - by intros ?%elem_of_nil.
  - intros H. destruct (String.eqb n k) eqn:E.
    + apply String.eqb_eq in E. by subst k.
    + apply String.eqb_neq in E. apply elem_of_cons in H as [?|H]; [done|].
      by apply IH.
Qed.





(** ** [Object.keys] *)

Lemma array_index_pretty (name : string) (n : N) :
  array_index name = Some n -> pretty n = name.
Proof.
  unfold array_index. destruct name as [|c rest]; [done|].
  destruct (numeral _ _) as [k|]; [|done].
  destruct (decide _) as [[H _]|]; [|done]. by intros [= <-].
Qed.

Lemma digit_pretty_N_char (d : N) :
  (d < 10)%N -> digit (pretty_N_char d) = Some d.
Proof.
  intros H.
  assert (d = 0 \/ d = 1 \/ d = 2 \/ d = 3 \/ d = 4 \/ d = 5 \/ d = 6
          \/ d = 7 \/ d = 8 \/ d = 9)%N as Hd by lia.
  repeat (destruct Hd as [->|Hd]; [reflexivity|]). by subst d.
Qed.

Lemma numeral_pretty_N_go (x : N) :
  forall s acc,
    (0 < x)%N ->
    exists len : N,
      numeral (pretty_N_go x s) acc = numeral s (acc * 10 ^ len + x)%N.
Proof.
  induction (N.lt_wf_0 x) as [x _ IH]; intros s acc Hx.
  rewrite pretty_N_go_step by done.
  assert (Hmod : (x `mod` 10 < 10)%N) by (apply N.mod_lt; lia).
  destruct (decide (x `div` 10 = 0)%N) as [E|E].
  - rewrite E, pretty_N_go_0. simpl. rewrite digit_pretty_N_char by done.
    exists 1%N. f_equal. rewrite N.pow_1_r.
    pose proof (N.div_mod x 10 ltac:(lia)) as Hdm. rewrite E in Hdm.
    clear Hmod. generalize dependent (x `mod` 10)%N. intros m Hdm. lia.
  - destruct (IH (x `div` 10)%N ltac:(apply N.div_lt; lia)
                (String (pretty_N_char (x `mod` 10)) s) acc
                (proj1 (N.neq_0_lt_0 _) E))
      as [len ->].
    simpl. rewrite digit_pretty_N_char by done.
    exists (len + 1)%N. f_equal.
    pose proof (N.div_mod x 10 ltac:(lia)) as Hdm.
    rewrite N.pow_add_r, N.pow_1_r.
    set (q := (x `div` 10)%N) in *. set (m := (x `mod` 10)%N) in *.
    clearbody q m. generalize (10 ^ len)%N. intros t. nia.
Qed.

Lemma array_index_complete (n : N) :
  (n < 4294967295)%N -> array_index (pretty n) = Some n.
Proof.
  intros Hn. destruct (decide (n = 0)%N) as [->|Hne]; [reflexivity|].
  assert (Hnum : numeral (pretty n) 0%N = Some n).
  { replace (pretty n) with (pretty_N_go n "")
      by (unfold pretty, pretty_N; by destruct (decide (n = 0)%N)).
    destruct (numeral_pretty_N_go n "" 0%N ltac:(lia)) as [len ->].
    done. }
  unfold array_index. destruct (pretty n) as [|c rest] eqn:E.
  - simpl in Hnum. injection Hnum as Hnum. lia.
  - rewrite Hnum. destruct (decide _) as [|Hno]; [done|].
    destruct Hno. by split.
Qed.

(** So the array indices are the numerals of the integers below
    [2^32 - 1], and nothing else. *)
Lemma array_index_spec (name : string) (n : N) :
  array_index name = Some n <-> name = pretty n /\ (n < 4294967295)%N.
Proof.
  split.
  - intros H. split; [symmetry; by apply array_index_pretty|].
    revert H. unfold array_index. destruct name as [|c rest]; [done|].
    destruct (numeral _ _) as [k|]; [|done].
    destruct (decide _) as [[_ Hk]|]; [|done]. by intros [= <-].
  - intros [-> Hn]. by apply array_index_complete.
Qed.






Section Host.

Variable evaluate : value -> value -> execution.
Variable inherited : string -> option func.










(** X9.  [register] with an options object replaces the termination
    handler by the object's [onTerminate], also when the object has none:
    after [register(methods, {})] the terminate message makes the worker
    exit at once, whatever handler was registered before; [register]
    without options keeps the handler. *)
Theorem register_options_replace_the_handler
    (ms : option (list (string * func))) (w : worker) :
  on_message evaluate inherited (Text TERMINATE_METHOD_ID)
    (register ms (Some {| onTerminate := None |}) w)
  = Done (exit 0 (register ms (Some {| onTerminate := None |}) w))
  /\ terminationHandler (register ms None w) = terminationHandler w
  /\ forall o, terminationHandler (register ms (Some o) w) = onTerminate o.
Proof.
  split; [|split].
  - simpl. unfold cleanupAndExit. by destruct ms.
  - by destruct ms.
  - intros o. by destruct ms.
Qed.

(** X10.  A request gets no response when its method throws [null] or
    [undefined], or returns a promise that is rejected with one of them (a
    [reject()] without reason): [convertError] throws on exactly these two
    values, the exception leaves the handler, nothing is sent, and
    [currentRequestId] stays as it is. *)
Theorem nullish_error_gets_no_response
    (w : worker) (request : WorkerRequest) (f : func) (err : value)
    (k : nat) (p i : value) :
  nullish err = true ->
  (forall e, convertError e = None <-> nullish e = true)
  /\ (lookup_method inherited w (method request) = Some f ->
      completion_of (call_method evaluate
                       (set_currentRequestId (id request) w) f
                       (params request)) = Throws err ->
      exists w2,
        serve evaluate inherited request w = Uncaught not_an_object w2
        /\ responses (sent w2) = responses (sent w)
        /\ currentRequestId w2 = id request)
  /\ (awaiting w !! k = Some (p, Reply i) ->
      settle k (Rejected err) w
      = Uncaught not_an_object (set_awaiting (delete k (awaiting w)) w)).
Proof.
  intros Herr. apply convertError_nullish in Herr.
  split; [apply convertError_nullish|]. split.
  - intros Hf Hrun. unfold serve. rewrite Hf, Hrun. unfold send_error.
    rewrite Herr. eexists. split; [done|].
    destruct (RuntimeFacts.emit_all_sent
                (emits (call_method evaluate
                          (set_currentRequestId (id request) w) f
                          (params request)))
                (set_currentRequestId (id request) w))
      as (new & -> & Hnew).
    simpl. rewrite responses_app, (responses_events _ Hnew). split; [lia|done].
  - intros Hk. unfold settle. rewrite Hk. unfold send_error. by rewrite Herr.
Qed.


(** X12.  While a method runs for a request with a truthy id, each of its
    [emit] calls sends an event with that id, in order, a [Transfer]
    payload as its message with its transfer list; when the method returns
    a value that is not a promise, the response follows the events. *)
Theorem events_precede_the_response
    (w : worker) (request : WorkerRequest) (f : func) (result : value) :
  lookup_method inherited w (method request) = Some f ->
  completion_of (call_method evaluate (set_currentRequestId (id request) w)
                   f (params request)) = Returns result ->
  isPromise result = false ->
  truthy (id request) = true ->
  sent (state_of (serve evaluate inherited request w))
  = sent w
    ++ map (event_of (id request))
         (emits (call_method evaluate (set_currentRequestId (id request) w)
                   f (params request)))
    ++ [response_to (id request) result].
Proof.
  intros Hf Hrun Hp Hid. unfold serve. rewrite Hf, Hrun, Hp.
  rewrite emit_all_truthy by done.
  destruct result; simpl; by rewrite <- app_assoc.
Qed.


(** X22.  When the termination handler throws, the terminate message does
    not make the worker exit: the exception leaves the listener, which
    handles the message outside its [try], [worker.exit] is not called and
    nothing is left waiting that would call it later. *)
Theorem throwing_termination_handler_prevents_exit
    (w : worker) (handler : Z -> execution) (err : value) :
  terminationHandler w = Some handler ->
  completion_of (handler 0%Z) = Throws err ->
  exists w1,
    on_message evaluate inherited (Text TERMINATE_METHOD_ID) w = Uncaught err w1
    /\ exits w1 = exits w
    /\ awaiting w1 = awaiting w
    /\ responses (sent w1) = responses (sent w)
    /\ terminationHandler w1 = Some handler.
Proof.
  intros Hh Hrun. simpl. unfold cleanupAndExit. rewrite Hh, Hrun.
  eexists. split; [reflexivity|].
  destruct (RuntimeFacts.emit_all_sent (emits (handler 0%Z)) w)
    as (new & Hw & Hnew).
  pose proof (responses_events _ Hnew) as Hnone.
  rewrite Hw. simpl. rewrite responses_app, Hnone.
  split; [done|]. split; [done|]. split; [lia|done].
Qed.

End Host.

(** X14.  Converting a record that [convertError] has produced gives the
    same record again. *)
Theorem convertError_is_idempotent (error record : value) :
  convertError error = Some record -> convertError record = Some record.
Proof.
  unfold convertError at 1.
  destruct (getOwnPropertyNames error) as [names|]; [|done].
  intros [= <-]. unfold empty_object.
  rewrite RuntimeFacts.fold_defineProperty. simpl.
  set (own := map (fun name => (name, (get error name, true))) names).
  assert (Hnames : getOwnPropertyNames (VObj own []) = Some names).
  { unfold getOwnPropertyNames, own. simpl. rewrite map_map. simpl.
    by rewrite map_id. }
  rewrite (RuntimeFacts.convertError_names _ _ Hnames). do 2 f_equal.
  apply map_ext_in. intros n Hn. do 2 f_equal.
  unfold get, own. simpl.
  rewrite (assoc_map_self (fun name => (get error name, true)) names n); [done|].
  by apply list_elem_of_In.
Qed.

(** ** The same, at sample workers *)


Lemma nullish_error_gets_no_response_witness :
  convertError VNull = None
  /\ settle 0 (Rejected VNull)
       (attach (VPromise 0) (Reply (VNum 1)) sample_worker)
     = Uncaught not_an_object sample_worker.
Proof.
  destruct (nullish_error_gets_no_response sample_evaluate sample_inherited
              (attach (VPromise 0) (Reply (VNum 1)) sample_worker)
              (request_of 1 "nothing") BuiltinRun VNull 0 (VPromise 0) (VNum 1)
              eq_refl) as (H1 & _ & H3).
  split; [by apply H1|]. exact (H3 eq_refl).
Defined.


Lemma events_precede_the_response_witness :
  sent (state_of (serve sample_evaluate sample_inherited
                    (request_of 7 "progress") sample_worker))
  = [(Ready, None);
     (Event (VNum 7) (VStr "progress: 50"), None);
     (Response (VNum 7) (VStr "done") VNull, None)].
Proof.
  exact (events_precede_the_response sample_evaluate sample_inherited
           sample_worker (request_of 7 "progress")
           (Fn (fun _ => {| emits := [VStr "progress: 50"];
                            completion_of := Returns (VStr "done") |}))
           (VStr "done") eq_refl eq_refl eq_refl eq_refl).
Defined.


Lemma throwing_termination_handler_prevents_exit_witness :
  exists w1,
    on_message sample_evaluate sample_inherited (Text TERMINATE_METHOD_ID)
      failing_cleanup_worker
    = Uncaught (new_Error "boom") w1
    /\ exits w1 = []
    /\ awaiting w1 = []
    /\ responses (sent w1) = 0
    /\ terminationHandler w1 = Some (fun _ => throwing (new_Error "boom")).
Proof.
  exact (throwing_termination_handler_prevents_exit sample_evaluate
           sample_inherited failing_cleanup_worker
           (fun _ => throwing (new_Error "boom")) (new_Error "boom")
           eq_refl eq_refl).
Defined.

Lemma convertError_is_idempotent_witness :
  convertError (VObj [("stack", (VStr "Error: boom", true));
                      ("message", (VStr "boom", true))] [])
  = Some (VObj [("stack", (VStr "Error: boom", true));
                ("message", (VStr "boom", true))] []).
Proof.
  exact (convertError_is_idempotent (new_Error "boom") _ eq_refl).
Defined.

End RuntimeMoreFacts.

(* ===================================================================== *)
(** * More properties of the deferred handle                              *)
(* ===================================================================== *)

Module LifecycleFacts.
Import JS Deferred Lifecycle.

(** ** Every instance stays well formed *)

Lemma well_formed_fresh parent : well_formed (fresh parent).
Proof. by repeat split. Qed.

Lemma well_formed_mark_resolved o : well_formed o -> well_formed (mark_resolved o).
Proof. intros (_ & H2 & H3 & H4 & _). by repeat split; try apply H4. Qed.

Lemma well_formed_mark_rejected o : well_formed o -> well_formed (mark_rejected o).
Proof. intros (_ & H2 & H3 & H4 & _). by repeat split; try apply H4. Qed.

Lemma well_formed_push a b o : well_formed o -> well_formed (push a b o).
Proof.
  intros (H1 & H2 & H3 & H4 & H5). split; [done|]. split; [|done].
  simpl. rewrite !length_app. simpl. lia.
Qed.

Lemma well_formed_seal how o :
  how <> Enqueue -> pending o = false -> well_formed o -> well_formed (seal how o).
Proof.
  intros Hhow Hp (H1 & H2 & _). split; [done|]. split; [done|].
  split; [done|]. simpl. split; [by split|]. by rewrite Hp.
Qed.

Lemma sound_modify p f s :
  (forall o, heap s !! p = Some o -> well_formed o -> well_formed (f o)) ->
  sound s -> sound (modify p f s).
Proof.
  intros Hf Hs q o. rewrite DeferredFacts.heap_modify.
  destruct (decide (p = q)) as [->|Hne].
  - rewrite list_lookup_alter_eq.
    destruct (heap s !! q) as [o0|] eqn:E; [|done].
    intros [= <-]. apply Hf; [done|]. by eapply Hs.
  - rewrite list_lookup_alter_ne by done. apply Hs.
Qed.

Lemma sound_same_heap s s' : heap s' = heap s -> sound s -> sound s'.
Proof. intros E Hs p o. rewrite E. apply Hs. Qed.

Lemma sound_allocate parent s : sound s -> sound (allocate parent s).
Proof.
  intros Hs p o. simpl. rewrite lookup_snoc_Some.
  intros [[_ H]|[_ <-]]; [by eapply Hs|apply well_formed_fresh].
Qed.

Section Soundness.

Variable call : invocation.
Hypothesis call_evolves : forall f this x s, evolves_to s (call f this x s).
Hypothesis call_sound :
  forall f this x s, sound s -> sound_after (call f this x s).

Lemma forEach_sound fns x s : sound s -> sound_after (forEach call fns x s).
Proof.
  revert s. induction fns as [|fn fns IH]; intros s Hs; simpl; [done|].
  pose proof (call_sound fn ThisUndefined x s Hs) as H.
  destruct (call fn ThisUndefined x s) as [v s'| | |]; try done.
  by apply IH.
Qed.

(** The two settling methods: the object is marked, the queue runs, and
    only then are [_process], [_resolve] and [_reject] replaced; by then
    [pending] is still cleared, whatever the callbacks did. *)
Lemma settling_sound (mark : promise -> promise) (queue : promise -> list closure)
    (how : processor) p x s :
  (forall o, keeps o (mark o)) ->
  (forall o, pending (mark o) = false) ->
  (forall o, well_formed o -> well_formed (mark o)) ->
  how <> Enqueue ->
  sound s ->
  sound_after
    (match heap (modify p mark s) !! p with
     | None => Dangling
     | Some o =>
         match forEach call (queue o) x (modify p mark s) with
         | Returned _ s2 => Returned (VPromise p) (modify p (seal how) s2)
         | o => o
         end
     end).
Proof.
  intros Hkeeps Hpending Hmark Hhow Hs.
  assert (H1 : sound (modify p mark s)) by (apply sound_modify; auto).
  destruct (heap (modify p mark s) !! p) as [o|] eqn:E; [|done].
  assert (Hpo : pending o = false).
  { rewrite DeferredFacts.lookup_modify in E.
    destruct (heap s !! p) as [o0|]; [|done]. injection E as <-.
    apply Hpending. }
  pose proof (forEach_sound (queue o) x _ H1) as H2.
  pose proof (DeferredFacts.forEach_evolves call call_evolves (queue o) x
                (modify p mark s)) as H3.
  destruct (forEach call _ x _) as [v s2|e s2| |]; simpl in *; try done.
  apply sound_modify; [|done]. intros o2 Ho2 Hwf.
  apply well_formed_seal; [done| |done].
  destruct (proj1 H3 p o E) as (o2' & Ho2' & _ & Hp).
  rewrite Ho2 in Ho2'. injection Ho2' as <-. by apply Hp.
Qed.

Lemma resolve_method_sound p x s :
  sound s -> sound_after (resolve_method call p x s).
Proof.
  intros Hs. by apply (settling_sound mark_resolved _onSuccess (OnSuccess x));
    auto using DeferredFacts.keeps_mark_resolved, well_formed_mark_resolved.
Qed.

Lemma reject_method_sound p x s :
  sound s -> sound_after (reject_method call p x s).
Proof.
  intros Hs. by apply (settling_sound mark_rejected _onFail (OnFail x));
    auto using DeferredFacts.keeps_mark_rejected, well_formed_mark_rejected.
Qed.

Lemma send_resolve_sound p x s : sound s -> sound_after (send_resolve call p x s).
Proof.
  intros Hs. unfold send_resolve. destruct (heap s !! p) as [o|]; [|done].
  destruct (_resolve o); [by apply resolve_method_sound|done].
Qed.

Lemma send_reject_sound p x s : sound s -> sound_after (send_reject call p x s).
Proof.
  intros Hs. unfold send_reject. destruct (heap s !! p) as [o|]; [|done].
  destruct (_reject o); [by apply reject_method_sound|done].
Qed.

Lemma process_sound p a b s : sound s -> sound_after (process call p a b s).
Proof.
  intros Hs. unfold process. destruct (heap s !! p) as [o|]; [|done].
  destruct (_process o); [|by apply call_sound..].
  apply sound_modify; [|done]. intros o0 _. apply well_formed_push.
Qed.

Lemma then_sound p a b s : sound s -> sound_after (then_ call p a b s).
Proof.
  intros Hs. unfold then_. destruct (heap s !! p) as [o|]; [|done].
  match goal with |- context [process call p ?sf ?ff ?s1] =>
    pose proof (process_sound p sf ff s1 (sound_allocate _ _ Hs)) as H;
    by destruct (process call p sf ff s1) end.
Qed.

Lemma cancel_walk_sound steps p s :
  sound s -> sound_after (cancel_walk call steps p s).
Proof.
  intros Hs. revert p. induction steps as [|steps IH]; intros p; simpl;
    destruct (heap s !! p) as [o|]; try done;
    destruct (parent o) as [q|]; try done.
  - pose proof (send_reject_sound p new_CancellationError s Hs) as H.
    by destruct (send_reject call p _ s).
  - pose proof (IH q) as H. by destruct (cancel_walk call steps q s).
  - pose proof (send_reject_sound p new_CancellationError s Hs) as H.
    by destruct (send_reject call p _ s).
Qed.

Lemma timeout_walk_sound steps p delay s :
  sound s -> sound_after (timeout_walk call steps p delay s).
Proof.
  intros Hs.
  assert (Hroot : forall p : nat,
    sound_after
      (match always call p (Some (ClearTimeout (length (timers s))))
               (setTimeout (TimedOut delay) s) with
       | Returned _ s2 => Returned (VPromise p) s2
       | o => o
       end)).
  { clear p. intros p. unfold always.
    pose proof (then_sound p (Some (ClearTimeout (length (timers s))))
                  (Some (ClearTimeout (length (timers s))))
                  (setTimeout (TimedOut delay) s)
                  (sound_same_heap s _ eq_refl Hs)) as H.
    by destruct (then_ call p _ _ _). }
  revert p. induction steps as [|steps IH]; intros p; simpl;
    destruct (heap s !! p) as [o|]; try done;
    destruct (parent o) as [q|]; try done; try apply Hroot.
  pose proof (IH q) as H. by destruct (timeout_walk call steps q delay s).
Qed.

Lemma fire_sound t s : sound s -> sound_after (fire call t s).
Proof.
  intros Hs. unfold fire. destruct (timers s !! t) as [T|]; [|done].
  destruct (armed T); [|done].
  apply call_sound. by apply (sound_same_heap s).
Qed.

Lemma perform_sound body x s : sound s -> sound_after (perform call body x s).
Proof.
  revert s. induction body as [|a body IH]; intros s Hs; simpl; [done|].
  assert (H : forall o, sound_after o ->
               sound_after match o with
                           | Returned _ s' => perform call body x s'
                           | o => o
                           end).
  { intros [v s'|e s'| |] H; simpl in *; try done. by apply IH. }
  apply H. destruct a as [tag|f y|p|p delay|p a b].
  - by apply (sound_same_heap s).
  - by apply call_sound.
  - by apply cancel_walk_sound.
  - by apply timeout_walk_sound.
  - by apply then_sound.
Qed.

Lemma caught_sound reject e s : sound s -> sound_after (caught call reject e s).
Proof.
  intros Hs. unfold caught. pose proof (call_sound reject ThisUndefined e s Hs) as H.
  by destruct (call reject ThisUndefined e s).
Qed.

Lemma apply_sound f this x s : sound s -> sound_after (apply call f this x s).
Proof.
  intros Hs.
  destruct f as [p|p|callback resolve reject|t|delay|body result]; simpl.
  - by apply send_resolve_sound.
  - by apply send_reject_sound.
  - pose proof (call_sound callback ThisUndefined x s Hs) as H1.
    destruct (call callback ThisUndefined x s) as [res s1|e s1| |];
      simpl in *; try done; [|by apply caught_sound].
    destruct (isPromise res).
    + destruct res; simpl; try by apply (sound_same_heap s1).
      pose proof (then_sound p (Some resolve) (Some reject) s1 H1) as H2.
      destruct (then_ call p _ _ s1) as [v s2|e s2| |]; simpl in *; try done.
      by apply caught_sound.
    + pose proof (call_sound resolve ThisUndefined res s1 H1) as H2.
      destruct (call resolve ThisUndefined res s1) as [v s2|e s2| |];
        simpl in *; try done.
      by apply caught_sound.
  - by apply (sound_same_heap s).
  - destruct this as [|t|p]; simpl; try done.
    pose proof (send_reject_sound p (timed_out delay) s Hs) as H.
    by destruct (send_reject call p _ s).
  - pose proof (perform_sound body x s Hs) as H.
    destruct (perform call body x s) as [v s'|e s'| |]; simpl in *; try done.
    by destruct result.
Qed.

End Soundness.

Lemma invoke_sound depth f this x s :
  sound s -> sound_after (invoke depth f this x s).
Proof.
  revert f this x s. induction depth as [|depth IH]; intros f this x s Hs; simpl.
  - done.
  - apply apply_sound; [apply DeferredFacts.invoke_evolves|apply IH|done].
Qed.

(** ** Symbolic evaluation *)

Lemma lookup_modify_ne p q f s :
  p <> q -> heap (modify p f s) !! q = heap s !! q.
Proof. intros H. by rewrite DeferredFacts.heap_modify, list_lookup_alter_ne. Qed.

Lemma lookup_allocate_old parent s p o :
  heap s !! p = Some o -> heap (allocate parent s) !! p = Some o.
Proof. intros H. simpl. rewrite lookup_app_l; [done|]. by eapply lookup_lt_Some. Qed.

Lemma lookup_allocate_new parent s :
  heap (allocate parent s) !! length (heap s) = Some (fresh parent).
Proof. simpl. by apply list_lookup_middle. Qed.

Lemma modify_twice p f g s : modify p f (modify p g s) = modify p (f ∘ g) s.
Proof.
  unfold modify, with_heap. simpl. f_equal. apply list_alter_alter_eq.
Qed.

Lemma untried_fresh parent : untried (fresh parent).
Proof. by repeat split. Qed.

(** The arrows handed to a handler, called for the first time on a promise
    nobody listens to: the promise settles, and the arrow returns it. *)
Lemma resolve_arrow_settles depth c oc this x s :
  heap s !! c = Some oc -> untried oc ->
  invoke (S depth) (Resolve c) this x s
  = Returned (VPromise c) (modify c (settle_as (OnSuccess x)) s).
Proof.
  intros Hc (_ & Hres & _ & Hq & _). simpl. unfold send_resolve.
  rewrite Hc, Hres. unfold resolve_method.
  rewrite DeferredFacts.lookup_modify, Hc. simpl. rewrite Hq. simpl.
  by rewrite modify_twice.
Qed.

Lemma reject_arrow_settles depth c oc this x s :
  heap s !! c = Some oc -> untried oc ->
  invoke (S depth) (Reject c) this x s
  = Returned (VPromise c) (modify c (settle_as (OnFail x)) s).
Proof.
  intros Hc (_ & _ & Hrej & _ & Hq). simpl. unfold send_reject.
  rewrite Hc, Hrej. unfold reject_method.
  rewrite DeferredFacts.lookup_modify, Hc. simpl. rewrite Hq. simpl.
  by rewrite modify_twice.
Qed.

(** The arrow that [_then] returns, around a caller's function whose
    answer is not a promise. *)
Lemma then_arrow_settles depth tag ans c oc this x s :
  heap s !! c = Some oc -> untried oc -> plain ans x ->
  invoke (2 + depth) (Then (User [Log tag] ans) (Resolve c) (Reject c)) this x s
  = Returned VUndefined (modify c (settle_as (answered ans x)) (log tag x s)).
Proof.
  intros Hc Hun Hplain.
  assert (Hc' : heap (log tag x s) !! c = Some oc) by done.
  change (invoke (2 + depth)) with (apply (invoke (1 + depth))).
  cbn [apply].
  change (invoke (1 + depth) (User [Log tag] ans) ThisUndefined x s)
    with (apply (invoke depth) (User [Log tag] ans) ThisUndefined x s).
  cbn [apply perform].
  destruct ans as [|v| |e]; simpl in Hplain; cbn [answered];
    rewrite ?Hplain; unfold caught;
    rewrite ?(resolve_arrow_settles depth c oc _ _ _ Hc' Hun),
            ?(reject_arrow_settles depth c oc _ _ _ Hc' Hun); done.
Qed.

(** ** What the public methods do *)

(** X15.  Every promise object stays well formed, whatever is called and
    however the calls nest: exactly one of [resolved], [rejected] and
    [pending] is set; the two queues have the same length; [_resolve] and
    [_reject] are replaced together, and exactly when [_process] is; a
    pending promise still queues its callbacks. *)
Theorem every_promise_stays_well_formed
    (depth : nat) (f : closure) (this : receiver) (x : value) (s : state)
    (p : pid) (a b : option closure) (delay : option Z) (t : tid) :
  sound s ->
  sound (snd (defer s))
  /\ sound_after (invoke depth f this x s)
  /\ sound_after (then_ (invoke depth) p a b s)
  /\ sound_after (cancel (invoke depth) p s)
  /\ sound_after (timeout (invoke depth) p delay s)
  /\ sound_after (fire (invoke depth) t s).
Proof.
  intros Hs.
  pose proof (DeferredFacts.invoke_evolves depth) as He.
  pose proof (invoke_sound depth) as Hi.
  split; [by apply sound_allocate|]. split; [by apply Hi|].
  split; [by apply then_sound|]. split; [by apply cancel_walk_sound|].
  split; [by apply timeout_walk_sound|by apply fire_sound].
Qed.

(** X16.  [cancel()] and [timeout(delay)] on a promise made by [then] do
    to the promise at the top of its chain what they would do when called
    on that promise, and differ only in returning the promise they were
    called on. *)
Theorem cancel_and_timeout_go_to_the_root
    (call : invocation) (s : state) (p r : pid) (delay : option Z) :
  parents_older (heap s) ->
  root_of (heap s) p r ->
  cancel call p s
  = match cancel call r s with
    | Returned _ s' => Returned (VPromise p) s'
    | out => out
    end
  /\ timeout call p delay s
     = match timeout call r delay s with
       | Returned _ s' => Returned (VPromise p) s'
       | out => out
       end.
Proof.
  intros W Hroot.
  destruct (DeferredFacts.root_of_allocated _ _ _ Hroot) as (o & Hr & Hpar).
  pose proof (root_here _ r o Hr Hpar) as Hrr.
  unfold cancel, timeout. split.
  - rewrite (DeferredFacts.cancel_walk_root call s p r W Hroot p) by done.
    rewrite (DeferredFacts.cancel_walk_root call s r r W Hrr r) by done.
    by destruct (send_reject call r _ s).
  - rewrite (DeferredFacts.timeout_walk_root call s p r delay W Hroot p) by done.
    rewrite (DeferredFacts.timeout_walk_root call s r r delay W Hrr r) by done.
    by destruct (always call r _ _).
Qed.

(** X17.  A settlement nobody handles passes to the child: [catch(f)] on a
    resolved promise gives a child resolved with the same value, and
    [then(f)] without [onFail] on a rejected promise gives a child rejected
    with the same error; [f] is not called. *)
Theorem unhandled_settlement_passes_to_the_child
    (depth : nat) (s : state) (p : pid) (o : promise) (x : value)
    (f : option closure) :
  heap s !! p = Some o ->
  let c := length (heap s) in
  (_process o = OnSuccess x ->
   catch (invoke (S depth)) p f s
   = Returned (VPromise c)
       (modify c (settle_as (OnSuccess x)) (allocate (Some p) s)))
  /\ (_process o = OnFail x ->
      then_ (invoke (S depth)) p f None s
      = Returned (VPromise c)
          (modify c (settle_as (OnFail x)) (allocate (Some p) s))).
Proof.
  intros Hp c.
  pose proof (lookup_allocate_old (Some p) s p o Hp) as Hp1.
  pose proof (lookup_allocate_new (Some p) s) as Hc.
  split; intros Hq; unfold catch, then_; rewrite Hp; unfold process;
    rewrite Hp1, Hq.
  - by rewrite (resolve_arrow_settles depth c _ _ _ _ Hc (untried_fresh _)).
  - by rewrite (reject_arrow_settles depth c _ _ _ _ Hc (untried_fresh _)).
Qed.

(** X18.  On a settled promise, [then] calls the callback for that
    settlement at once and exactly once, with the value or the error, and
    the answer settles the child: a returned value that is not a promise
    resolves it, a thrown one rejects it.  The other callback is not
    called. *)
Theorem callback_answer_settles_the_child
    (depth : nat) (s : state) (p : pid) (o : promise) (x : value)
    (tag : nat) (ans : answer) (other : option closure) :
  heap s !! p = Some o ->
  plain ans x ->
  let c := length (heap s) in
  let after :=
    Returned (VPromise c)
      (modify c (settle_as (answered ans x))
         (log tag x (allocate (Some p) s))) in
  (_process o = OnSuccess x ->
   then_ (invoke (2 + depth)) p (Some (User [Log tag] ans)) other s = after)
  /\ (_process o = OnFail x ->
      then_ (invoke (2 + depth)) p other (Some (User [Log tag] ans)) s = after).
Proof.
  intros Hp Hplain c after.
  pose proof (lookup_allocate_old (Some p) s p o Hp) as Hp1.
  pose proof (lookup_allocate_new (Some p) s) as Hc.
  split; intros Hq; unfold then_; rewrite Hp; unfold process;
    rewrite Hp1, Hq;
    by rewrite (then_arrow_settles depth tag ans c _ _ _ _ Hc
                  (untried_fresh _) Hplain).
Qed.

(** X19.  A callback given to [then] on a pending promise is queued, and a
    later [resolve] calls it once with the value: its answer settles the
    child, and the promise itself ends resolved.  A later [reject] does not
    call it: the child is rejected with the same error. *)
Theorem settlement_reaches_the_queued_callback
    (call : invocation) (depth : nat) (s : state) (p : pid) (o : promise)
    (x : value) (tag : nat) (ans : answer) (this : receiver) :
  heap s !! p = Some o ->
  untried o ->
  plain ans x ->
  let c := length (heap s) in
  let s1 :=
    modify p (push (Then (User [Log tag] ans) (Resolve c) (Reject c))
                (Reject c))
      (allocate (Some p) s) in
  then_ call p (Some (User [Log tag] ans)) None s = Returned (VPromise c) s1
  /\ invoke (3 + depth) (Resolve p) this x s1
     = Returned (VPromise p)
         (modify p (seal (OnSuccess x))
            (modify c (settle_as (answered ans x))
               (log tag x (modify p mark_resolved s1))))
  /\ invoke (2 + depth) (Reject p) this x s1
     = Returned (VPromise p)
         (modify p (seal (OnFail x))
            (modify c (settle_as (OnFail x)) (modify p mark_rejected s1))).
Proof.
  intros Hp (Hproc & Hres & Hrej & Hqs & Hqf) Hplain c s1.
  assert (Hne : p <> c) by (apply lookup_lt_Some in Hp; unfold c; lia).
  pose proof (lookup_allocate_old (Some p) s p o Hp) as Hp0.
  pose proof (lookup_allocate_new (Some p) s) as Hc0.
  assert (Hp1 : heap s1 !! p
                = Some (push (Then (User [Log tag] ans) (Resolve c) (Reject c))
                          (Reject c) o))
    by (unfold s1; by rewrite DeferredFacts.lookup_modify, Hp0).
  assert (Hc1 : heap s1 !! c = Some (fresh (Some p)))
    by (unfold s1; by rewrite lookup_modify_ne).
  split; [|split].
  - unfold then_. rewrite Hp. unfold process. by rewrite Hp0, Hproc.
  - change (invoke (3 + depth)) with (apply (invoke (2 + depth))).
    cbn [apply]. unfold send_resolve. rewrite Hp1. cbn [_resolve push].
    rewrite Hres. unfold resolve_method.
    rewrite DeferredFacts.lookup_modify, Hp1.
    cbn [fmap option_fmap option_map _onSuccess mark_resolved push].
    rewrite Hqs. cbn [app forEach].
    assert (Hc2 : heap (modify p mark_resolved s1) !! c = Some (fresh (Some p)))
      by (by rewrite lookup_modify_ne).
    by rewrite (then_arrow_settles depth tag ans c _ _ _ _ Hc2
                  (untried_fresh _) Hplain).
  - change (invoke (2 + depth)) with (apply (invoke (1 + depth))).
    cbn [apply]. unfold send_reject. rewrite Hp1. cbn [_reject push].
    rewrite Hrej. unfold reject_method.
    rewrite DeferredFacts.lookup_modify, Hp1.
    cbn [fmap option_fmap option_map _onFail mark_rejected push].
    rewrite Hqf. cbn [app forEach].
    assert (Hc2 : heap (modify p mark_rejected s1) !! c = Some (fresh (Some p)))
      by (by rewrite lookup_modify_ne).
    by rewrite (reject_arrow_settles depth c _ _ _ _ Hc2 (untried_fresh _)).
Qed.

(** ** Adoption *)

Lemma arrow_settles depth how c oc this s :
  how <> Enqueue ->
  heap s !! c = Some oc -> untried oc ->
  invoke (S depth) (arrow_of how c) this (value_of how) s
  = Returned (VPromise c) (modify c (settle_as how) s).
Proof.
  intros Hhow Hc Hoc. destruct how as [|v|v]; [done| |].
  - by apply (resolve_arrow_settles depth c oc).
  - by apply (reject_arrow_settles depth c oc).
Qed.

Lemma lookup_settle_as p how s o :
  heap s !! p = Some o ->
  heap (modify p (settle_as how) s) !! p = Some (settle_as how o).
Proof. intros H. by rewrite DeferredFacts.lookup_modify, H. Qed.

(** The arrow [(result) => this._resolve(result)] returns what [_resolve]
    returns, the promise.  Where [_then] takes it as the callback, which is
    what [res.then(resolve, reject)] makes of it, the promise it returns is
    adopted in turn, on a promise that is settled by then, and so on: each
    level settles one promise and constructs the next, until a call finds
    the stack exhausted.  The [RangeError] is caught by the [try] of the
    level above, which rejects the last promise constructed with it. *)
Lemma adoption_fills_the_stack k :
  forall s c d oc od how this,
    how <> Enqueue ->
    c <> d ->
    heap s !! c = Some oc -> untried oc ->
    heap s !! d = Some od -> untried od ->
    exists s',
      invoke (2 + k) (Then (arrow_of how c) (Resolve d) (Reject d)) this
        (value_of how) s
      = Returned VUndefined s'
      /\ heap s' !! c = Some (settle_as how oc)
      /\ length (heap s') = length (heap s) + 1 + k
      /\ (forall r o, r <> c -> r <> d ->
            heap s !! r = Some o -> heap s' !! r = Some o)
      /\ console s' = console s.
Proof.
  induction k as [|k IH]; intros s c d oc od how this Hhow Hne Hc Hoc Hd Hod.
  - set (s2 := modify c (settle_as how) s).
    set (s3 := allocate (Some c) s2).
    assert (Hc2 : heap s2 !! c = Some (settle_as how oc))
      by by apply lookup_settle_as.
    assert (Hd2 : heap s2 !! d = Some od)
      by (unfold s2; by rewrite lookup_modify_ne).
    pose proof (lookup_allocate_old (Some c) s2 c _ Hc2) as Hc3.
    pose proof (lookup_allocate_old (Some c) s2 d _ Hd2) as Hd3.
    fold s3 in Hc3, Hd3.
    exists (modify d (settle_as (OnFail stack_exhausted)) s3).
    split; [|split; [|split; [|split]]].
    + change (invoke (2 + 0)) with (apply (invoke 1)). cbn [apply].
      rewrite (arrow_settles 0 how c oc _ s Hhow Hc Hoc). fold s2.
      change (isPromise (VPromise c)) with true. cbv iota.
      unfold then_. rewrite Hc2. fold s3. unfold process. rewrite Hc3.
      assert (Hbottom : forall f v,
        invoke 1 (Then f (Resolve (length (heap s2)))
                    (Reject (length (heap s2)))) ThisUndefined v s3
        = Thrown stack_exhausted s3) by done.
      assert (Hq : _process (settle_as how oc) = how)
        by (by destruct how).
      rewrite Hq. destruct how as [|v|v]; [done| |];
        rewrite Hbottom; unfold caught;
        by rewrite (reject_arrow_settles 0 d od _ _ s3 Hd3 Hod).
    + rewrite lookup_modify_ne by done. exact Hc3.
    + unfold s3, s2. simpl. rewrite length_alter, length_app, !length_alter.
      simpl. lia.
    + intros r o Hrc Hrd Hr. rewrite lookup_modify_ne by done.
      apply lookup_allocate_old. unfold s2. by rewrite lookup_modify_ne.
    + done.
  - set (s2 := modify c (settle_as how) s).
    set (s3 := allocate (Some c) s2).
    assert (Hc2 : heap s2 !! c = Some (settle_as how oc))
      by by apply lookup_settle_as.
    assert (Hd2 : heap s2 !! d = Some od)
      by (unfold s2; by rewrite lookup_modify_ne).
    pose proof (lookup_allocate_old (Some c) s2 c _ Hc2) as Hc3.
    pose proof (lookup_allocate_old (Some c) s2 d _ Hd2) as Hd3.
    pose proof (lookup_allocate_new (Some c) s2) as He3.
    fold s3 in Hc3, Hd3, He3.
    assert (Hde : d <> length (heap s2))
      by (apply lookup_lt_Some in Hd2; lia).
    assert (Hce : c <> length (heap s2))
      by (apply lookup_lt_Some in Hc2; lia).
    destruct (IH s3 d (length (heap s2)) od (fresh (Some c)) how ThisUndefined
                Hhow Hde Hd3 Hod He3 (untried_fresh _))
      as (s4 & Hrun & Hd4 & Hlen & Hrest & Hlog).
    exists s4. split; [|split; [|split; [|split]]].
    + change (invoke (2 + S k)) with (apply (invoke (2 + k))). cbn [apply].
      rewrite (arrow_settles (S k) how c oc _ s Hhow Hc Hoc). fold s2.
      change (isPromise (VPromise c)) with true. cbv iota.
      unfold then_. rewrite Hc2. fold s3. unfold process. rewrite Hc3.
      assert (Hq : _process (settle_as how oc) = how)
        by (by destruct how).
      rewrite Hq. destruct how as [|v|v]; [done| |];
        cbn [arrow_of value_of] in Hrun; by rewrite Hrun.
    + by apply Hrest.
    + rewrite Hlen. unfold s3, s2. simpl. rewrite length_app, length_alter.
      simpl. lia.
    + intros r o Hrc Hrd Hr.
      assert (Hr2 : heap s2 !! r = Some o)
        by (unfold s2; by rewrite lookup_modify_ne).
      apply Hrest; [done| |by apply lookup_allocate_old].
      apply lookup_lt_Some in Hr2. lia.
    + by rewrite Hlog.
Qed.

(** X20.  When a callback of [then] on a resolved promise returns a
    promise of this class that is already settled, [then] returns the
    child, settled like the promise returned.  Getting there takes the
    whole stack: the arrow [(result) => this._resolve(result)] returns the
    promise that [_resolve] returns, which [_then] adopts again, so that
    every level of nesting the stack allows constructs one more promise. *)
Theorem adoption_settles_the_child_and_fills_the_stack
    (k : nat) (s : state) (p q : pid) (o oq : promise) (x : value)
    (other : option closure) :
  heap s !! p = Some o ->
  heap s !! q = Some oq ->
  _process o = OnSuccess x ->
  _process oq <> Enqueue ->
  let c := length (heap s) in
  exists s',
    then_ (invoke (3 + k)) p (Some (User [] (Return (VPromise q)))) other s
    = Returned (VPromise c) s'
    /\ heap s' !! c = Some (settle_as (_process oq) (fresh (Some p)))
    /\ length (heap s') = length (heap s) + 3 + k
    /\ (forall r o', heap s !! r = Some o' -> heap s' !! r = Some o')
    /\ console s' = console s.
Proof.
  intros Hp Hq Ho Hoq c.
  set (s1 := allocate (Some p) s).
  pose proof (lookup_allocate_old (Some p) s p o Hp) as Hp1.
  pose proof (lookup_allocate_old (Some p) s q oq Hq) as Hq1.
  pose proof (lookup_allocate_new (Some p) s) as Hc1.
  fold s1 c in Hp1, Hq1, Hc1.
  set (s2 := allocate (Some q) s1).
  pose proof (lookup_allocate_old (Some q) s1 q oq Hq1) as Hq2.
  pose proof (lookup_allocate_old (Some q) s1 _ _ Hc1) as Hc2.
  pose proof (lookup_allocate_new (Some q) s1) as Hd2.
  fold s2 in Hq2, Hc2, Hd2.
  assert (Hlen1 : length (heap s1) = S c)
    by (unfold s1, c; simpl; rewrite length_app; simpl; lia).
  assert (Hne : c <> length (heap s1)) by lia.
  assert (Hvalue : forall this f,
    f = Then (arrow_of (_process oq) c) (Resolve (length (heap s1)))
          (Reject (length (heap s1))) ->
    exists s',
      invoke (2 + k) f this (value_of (_process oq)) s2 = Returned VUndefined s'
      /\ heap s' !! c = Some (settle_as (_process oq) (fresh (Some p)))
      /\ length (heap s') = length (heap s2) + 1 + k
      /\ (forall r o', r <> c -> r <> length (heap s1) ->
            heap s2 !! r = Some o' -> heap s' !! r = Some o')
      /\ console s' = console s2).
  { intros this f ->.
    exact (adoption_fills_the_stack k s2 c (length (heap s1)) _ _
             (_process oq) this Hoq Hne Hc2 (untried_fresh _) Hd2
             (untried_fresh _)). }
  destruct (Hvalue ThisUndefined _ eq_refl)
    as (s' & Hrun & Hc' & Hlen & Hrest & Hlog).
  exists s'. split; [|split; [|split; [|split]]].
  - unfold then_ at 1. rewrite Hp. fold s1. unfold process at 1.
    rewrite Hp1, Ho.
    change (invoke (3 + k)) with (apply (invoke (2 + k))). cbn [apply].
    change (invoke (2 + k) (User [] (Return (VPromise q))) ThisUndefined x s1)
      with (Returned (VPromise q) s1).
    cbv iota. change (isPromise (VPromise q)) with true. cbv iota.
    unfold then_. rewrite Hq1. fold s2. unfold process. rewrite Hq2.
    revert Hrun. destruct (_process oq) as [|v|v]; [done| |];
      cbn [arrow_of value_of]; intros Hrun; unfold c in *; by rewrite Hrun.
  - done.
  - rewrite Hlen. unfold s2. cbn [allocate with_heap heap].
    rewrite length_app, Hlen1. simpl. unfold c. lia.
  - intros r o' Hr. apply Hrest.
    + apply lookup_lt_Some in Hr. unfold c. lia.
    + apply lookup_lt_Some in Hr. unfold c in Hlen1. lia.
    + unfold s2, s1. by do 2 apply lookup_allocate_old.
  - done.
Qed.

(** X21.  When a callback of [then] on a resolved promise returns a
    pending promise of this class that nothing else listens to, [then]
    returns the child, and the later settlement of the promise returned
    settles the child alike; it too takes the whole stack, constructing one
    more promise for every level of nesting the stack allows. *)
Theorem settling_an_adopted_promise_fills_the_stack
    (depth k : nat) (s : state) (p q : pid) (o oq : promise)
    (x : value) (how : processor) (other : option closure) (this : receiver) :
  heap s !! p = Some o ->
  heap s !! q = Some oq ->
  _process o = OnSuccess x ->
  untried oq ->
  how <> Enqueue ->
  let c := length (heap s) in
  exists s1 s' oq',
    then_ (invoke (2 + depth)) p (Some (User [] (Return (VPromise q)))) other s
    = Returned (VPromise c) s1
    /\ heap s1 !! c = Some (fresh (Some p))
    /\ oq' = push (Then (Resolve c) (Resolve (S c)) (Reject (S c)))
                (Then (Reject c) (Resolve (S c)) (Reject (S c))) oq
    /\ heap s1 !! q = Some oq'
    /\ invoke (3 + k) (arrow_of how q) this (value_of how) s1
       = Returned (VPromise q) s'
    /\ heap s' !! q = Some (settle_as how oq')
    /\ heap s' !! c = Some (settle_as how (fresh (Some p)))
    /\ length (heap s') = length (heap s1) + 1 + k.
Proof.
  intros Hp Hq Ho (Hproc & Hres & Hrej & Hqs & Hqf) Hhow c.
  set (s1 := allocate (Some p) s).
  pose proof (lookup_allocate_old (Some p) s p o Hp) as Hp1.
  pose proof (lookup_allocate_old (Some p) s q oq Hq) as Hq1.
  pose proof (lookup_allocate_new (Some p) s) as Hc1.
  fold s1 c in Hp1, Hq1, Hc1.
  pose proof (lookup_allocate_old (Some q) s1 q oq Hq1) as Hq2.
  pose proof (lookup_allocate_old (Some q) s1 _ _ Hc1) as Hc2.
  pose proof (lookup_allocate_new (Some q) s1) as Hd2.
  set (d := length (heap s1)) in *.
  assert (Hcd : c <> d)
    by (unfold c, d, s1; simpl; rewrite length_app; simpl; lia).
  assert (Hqc : q <> c) by (apply lookup_lt_Some in Hq; unfold c; lia).
  assert (Hqd : q <> d) by (apply lookup_lt_Some in Hq1; unfold d; lia).
  pose (sf := Then (Resolve c) (Resolve d) (Reject d)).
  pose (ff := Then (Reject c) (Resolve d) (Reject d)).
  pose (s2 := modify q (push sf ff) (allocate (Some q) s1)).
  assert (Hq3 : heap s2 !! q = Some (push sf ff oq))
    by (unfold s2; by rewrite DeferredFacts.lookup_modify, Hq2).
  pose (mark := match how with
                | OnFail _ => mark_rejected
                | _ => mark_resolved
                end).
  pose (s3 := modify q mark s2).
  assert (Hc3 : heap s3 !! c = Some (fresh (Some p)))
    by (unfold s3, s2; by rewrite !lookup_modify_ne).
  assert (Hd3 : heap s3 !! d = Some (fresh (Some q)))
    by (unfold s3, s2; by rewrite !lookup_modify_ne).
  assert (Hq4 : heap s3 !! q = Some (mark (push sf ff oq)))
    by (unfold s3; by rewrite DeferredFacts.lookup_modify, Hq3).
  destruct (adoption_fills_the_stack k s3 c d _ _ how ThisUndefined Hhow Hcd
              Hc3 (untried_fresh _) Hd3 (untried_fresh _))
    as (s4 & Hrun & Hc4 & Hlen & Hrest & _).
  assert (Hd : d = S c)
    by (unfold d, c, s1; simpl; rewrite length_app; simpl; lia).
  exists s2, (modify q (seal how) s4), (push sf ff oq).
  split; [|split; [|split; [|split; [|split; [|split; [|split]]]]]];
    [| |unfold sf, ff; by rewrite Hd|exact Hq3| | | |].
  - unfold then_ at 1. rewrite Hp. fold s1. unfold process at 1.
    rewrite Hp1, Ho.
    change (invoke (2 + depth)) with (apply (invoke (1 + depth))).
    cbn [apply].
    change (invoke (1 + depth) (User [] (Return (VPromise q))) ThisUndefined
              x s1)
      with (Returned (VPromise q) s1).
    cbv iota. change (isPromise (VPromise q)) with true. cbv iota.
    unfold then_. rewrite Hq1. unfold process. by rewrite Hq2, Hproc.
  - unfold s2. by rewrite lookup_modify_ne.
  - change (invoke (3 + k)) with (apply (invoke (2 + k))).
    destruct how as [|v|v]; [done| |]; cbn [apply arrow_of value_of] in *.
    + unfold send_resolve. rewrite Hq3. cbn [_resolve push]. rewrite Hres.
      unfold resolve_method. change (modify q mark_resolved s2) with s3.
      rewrite Hq4.
      cbn [_onSuccess mark mark_resolved push]. rewrite Hqs. cbn [app forEach].
      unfold sf. by rewrite Hrun.
    + unfold send_reject. rewrite Hq3. cbn [_reject push]. rewrite Hrej.
      unfold reject_method. change (modify q mark_rejected s2) with s3.
      rewrite Hq4.
      cbn [_onFail mark mark_rejected push]. rewrite Hqf. cbn [app forEach].
      unfold ff. by rewrite Hrun.
  - rewrite DeferredFacts.lookup_modify, (Hrest q _ Hqc Hqd Hq4).
    by destruct how.
  - by rewrite lookup_modify_ne.
  - rewrite DeferredFacts.heap_modify, length_alter, Hlen.
    unfold s3, s2. simpl. by rewrite !length_alter.
Qed.

(** ** The same, in the scenarios *)

Lemma sound_initial : sound initial.
Proof. intros p o H. done. Qed.

Lemma every_promise_stays_well_formed_witness :
  sound (snd (defer initial))
  /\ sound_after (invoke 1 (Resolve 0) ThisUndefined (VNum 1) (snd (defer initial)))
  /\ sound_after (cancel (invoke 1) 0 (snd (defer initial))).
Proof.
  assert (H : sound (snd (defer initial)))
    by exact (sound_allocate None initial sound_initial).
  destruct (every_promise_stays_well_formed 1 (Resolve 0) ThisUndefined (VNum 1)
              (snd (defer initial)) 0 None None None 0 H)
    as (_ & H1 & _ & H2 & _).
  split; [exact H|]. split; [exact H1|exact H2].
Defined.

Lemma cancel_and_timeout_go_to_the_root_witness :
  cancel (invoke 3) 1 recovering_start
  = match cancel (invoke 3) 0 recovering_start with
    | Returned _ s' => Returned (VPromise 1) s'
    | out => out
    end
  /\ timeout (invoke 3) 1 (Some 10%Z) recovering_start
     = match timeout (invoke 3) 0 (Some 10%Z) recovering_start with
       | Returned _ s' => Returned (VPromise 1) s'
       | out => out
       end.
Proof.
  assert (W : parents_older (heap recovering_start)).
  { intros [|[|p]] o q; simpl; intros [= <-]; simpl; intros [=]. lia. }
  assert (R : root_of (heap recovering_start) 1 0).
  { eapply root_above; [reflexivity|reflexivity|].
    eapply root_here; reflexivity. }
  exact (cancel_and_timeout_go_to_the_root (invoke 3) recovering_start 1 0
           (Some 10%Z) W R).
Defined.

Lemma unhandled_settlement_passes_to_the_child_witness :
  catch (invoke 1) 0 (Some (User [Log 1] ReturnArg)) resolved_start
  = Returned (VPromise 1)
      (modify 1 (settle_as (OnSuccess (VNum 1)))
         (allocate (Some 0) resolved_start))
  /\ then_ (invoke 1) 0 (Some (User [Log 1] ReturnArg)) None rejected_start
     = Returned (VPromise 1)
         (modify 1 (settle_as (OnFail (VStr "no")))
            (allocate (Some 0) rejected_start)).
Proof.
  split.
  - exact (proj1 (unhandled_settlement_passes_to_the_child 0 resolved_start 0 _
                    (VNum 1) (Some (User [Log 1] ReturnArg)) eq_refl) eq_refl).
  - exact (proj2 (unhandled_settlement_passes_to_the_child 0 rejected_start 0 _
                    (VStr "no") (Some (User [Log 1] ReturnArg)) eq_refl) eq_refl).
Defined.

Lemma callback_answer_settles_the_child_witness :
  then_ (invoke 2) 0 (Some (User [Log 7] (Throw (VStr "bad")))) None resolved_start
  = Returned (VPromise 1)
      (modify 1 (settle_as (OnFail (VStr "bad")))
         (log 7 (VNum 1) (allocate (Some 0) resolved_start)))
  /\ then_ (invoke 2) 0 None (Some (User [Log 7] (Return (VStr "fine"))))
       rejected_start
     = Returned (VPromise 1)
         (modify 1 (settle_as (OnSuccess (VStr "fine")))
            (log 7 (VStr "no") (allocate (Some 0) rejected_start))).
Proof.
  split.
  - exact (proj1 (callback_answer_settles_the_child 0 resolved_start 0 _
                    (VNum 1) 7 (Throw (VStr "bad")) None eq_refl I) eq_refl).
  - exact (proj2 (callback_answer_settles_the_child 0 rejected_start 0 _
                    (VStr "no") 7 (Return (VStr "fine")) None eq_refl eq_refl)
             eq_refl).
Defined.

Lemma settlement_reaches_the_queued_callback_witness :
  exists s1 s2,
    then_ (invoke 0) 0 (Some (User [Log 7] (Return (VStr "next")))) None
      (snd (defer initial))
    = Returned (VPromise 1) s1
    /\ invoke 3 (Resolve 0) ThisUndefined (VNum 1) s1 = Returned (VPromise 0) s2
    /\ console s2 = [(7, VNum 1)]
    /\ (status <$> heap s2 !! 0)
       = Some (true, false, false, OnSuccess (VNum 1), Noop, Noop)
    /\ (status <$> heap s2 !! 1)
       = Some (true, false, false, OnSuccess (VStr "next"), Noop, Noop).
Proof.
  destruct (settlement_reaches_the_queued_callback (invoke 0) 0
              (snd (defer initial)) 0 (fresh None) (VNum 1) 7
              (Return (VStr "next")) ThisUndefined eq_refl
              (untried_fresh None) eq_refl) as (H1 & H2 & _).
  eexists. eexists. split; [exact H1|]. split; [exact H2|].
  repeat split; reflexivity.
Defined.

Lemma adoption_settles_the_child_and_fills_the_stack_witness :
  exists s',
    then_ (invoke 40) 0 (Some (User [] (Return (VPromise 1)))) None
      both_resolved_start
    = Returned (VPromise 2) s'
    /\ (status <$> heap s' !! 2)
       = Some (true, false, false, OnSuccess (VNum 2), Noop, Noop)
    /\ length (heap s') = 42.
Proof.
  destruct (adoption_settles_the_child_and_fills_the_stack 37
              both_resolved_start 0 1 _ _ (VNum 1) None eq_refl eq_refl
              eq_refl ltac:(discriminate))
    as (s' & H1 & H2 & H3 & _).
  exists s'. split; [exact H1|].
  split; [exact (f_equal (fmap status) H2)|exact H3].
Defined.

Lemma settling_an_adopted_promise_fills_the_stack_witness :
  exists s1 s',
    then_ (invoke 2) 0 (Some (User [] (Return (VPromise 1)))) None waiting_start
    = Returned (VPromise 2) s1
    /\ invoke 40 (Resolve 1) ThisUndefined (VNum 2) s1 = Returned (VPromise 1) s'
    /\ (status <$> heap s' !! 2)
       = Some (true, false, false, OnSuccess (VNum 2), Noop, Noop)
    /\ length (heap s') = 42.
Proof.
  destruct (settling_an_adopted_promise_fills_the_stack 0 37 waiting_start 0 1
              _ _ (VNum 1) (OnSuccess (VNum 2)) None ThisUndefined
              eq_refl eq_refl eq_refl (untried_fresh None)
              ltac:(discriminate))
    as (s1 & s' & oq' & H1 & _ & _ & _ & H3 & _ & H5 & H6).
  exists s1, s'. split; [exact H1|]. split; [exact H3|].
  split; [exact (f_equal (fmap status) H5)|].
  rewrite H6. injection H1 as <-. reflexivity.
Defined.

End LifecycleFacts.
